(** * LacrossePlayMaker: the editing, animation and storage engine

    A shallow embedding of the play editor's element model, its undo/redo
    history, the hit-testing helpers, the animation interpolator and the
    server-side storage and validation code, with the properties the
    specification states about them.

    Numbers of the client (JavaScript [number]) are IEEE 754 binary64
    values.  The element model carries them as real numbers [R], which is
    enough for every property that does not depend on how an arithmetic
    result is rounded; the formulas whose rounding matters (the geometry
    helpers, the arrow hit test and the interpolation of the animation) are
    given a second time over binary64, in [Binary64], with the operators of
    the kernel's primitive floats.  Numbers inside JSON request bodies are
    modelled as rationals [Q]. *)

From Stdlib Require Import Reals Lra QArith ZArith.
From Stdlib Require Floats.
From stdpp Require Import base option list strings gmap sorting.

(** * Part I: the program

    Every definition below is written after the source function of the same
    name.  React state setters are modelled as state passing: an event
    handler is a function from the state before the event to the state the
    next render sees. *)

(** ** Element model (shared/schema [CanvasElement], [FieldElement]) *)

Inductive Team := blue | red.

(** [type] is kept as the string it is at run time: the editors build
    elements with [type: selectedTool as any]. *)
Record CanvasElement := mkElement {
  el_id : string;
  el_type : string;
  el_x : R;
  el_y : R;
  el_points : option (list R);
  el_position : option string;
  el_team : option Team;
  el_text : option string
}.

(** [Partial<CanvasElement>]: a key that is absent is [None]. *)
Record ElementChanges := mkChanges {
  ch_id : option string;
  ch_type : option string;
  ch_x : option R;
  ch_y : option R;
  ch_points : option (list R);
  ch_position : option string;
  ch_team : option Team;
  ch_text : option string
}.

(** The object spread [{ ...el, ...changes }]. *)
Definition spread (el : CanvasElement) (changes : ElementChanges) : CanvasElement :=
  {| el_id := default (el_id el) (ch_id changes);
     el_type := default (el_type el) (ch_type changes);
     el_x := default (el_x el) (ch_x changes);
     el_y := default (el_y el) (ch_y changes);
     el_points := if ch_points changes is Some p then Some p else el_points el;
     el_position := if ch_position changes is Some p then Some p else el_position el;
     el_team := if ch_team changes is Some t then Some t else el_team el;
     el_text := if ch_text changes is Some t then Some t else el_text el |}.

(** [Array.prototype.pop] and [Array.prototype.shift] on a copy: the removed
    element ([undefined] on an empty array) and the remaining array. *)
Definition pop {A} (l : list A) : option A * list A := (last l, removelast l).
Definition shift {A} (l : list A) : option A * list A := (head l, tail l).

(** ** Comparisons of numbers *)

#[global] Instance Rle_decision (a b : R) : Decision (a <= b)%R := Rle_dec a b.
#[global] Instance Rlt_decision (a b : R) : Decision (a < b)%R := Rlt_dec a b.
#[global] Instance Rge_decision (a b : R) : Decision (a >= b)%R := Rge_dec a b.
#[global] Instance Rgt_decision (a b : R) : Decision (a > b)%R := Rgt_dec a b.
#[global] Instance R_eq_decision : EqDecision R := Req_dec_T.

(** The three arrow types: [['moveArrow', 'passArrow', 'shootArrow'].includes(t)]. *)
Definition arrowTypes : list string := ["moveArrow"; "passArrow"; "shootArrow"].
Definition isArrowType (t : string) : Prop := t ∈ arrowTypes.
#[global] Instance isArrowType_decision t : Decision (isArrowType t) := _.

(** ** History: [{ past, present, future }] *)

Record HistoryState := mkHistory {
  past : list (list CanvasElement);
  present : list CanvasElement;
  future : list (list CanvasElement)
}.

(** ** Objects and references

    [getAnimatedElements] writes to the [x] and [y] of objects, so the arrays
    it works on are arrays of references into a store of objects.  A store
    is a list of objects and a reference is an index into it; allocation
    appends. *)

Abbreviation Store := (list CanvasElement).
Abbreviation Ref := nat.

(** [JSON.parse(JSON.stringify(elements))]: one fresh object per entry. *)
Definition jsonClone (σ : Store) (elements : list Ref) : Store * list Ref :=
  let objs := omap (λ r, σ !! r) elements in
  (σ ++ objs, seq (length σ) (length objs)).

(** The objects an array of references denotes. *)
Definition deref (σ : Store) (elements : list Ref) : list CanvasElement :=
  omap (λ r, σ !! r) elements.

(** The predicate of [animatedElements.find(...)]: a player whose position is
    within 20 units of the arrow's start on both axes. *)
Definition playerAtStart (σ : Store) (p0 p1 : R) (r : Ref) : Prop :=
  match σ !! r with
  | Some el =>
      el_type el = "player" ∧
      (Rabs (el_x el - p0) < 20)%R ∧
      (Rabs (el_y el - p1) < 20)%R
  | None => False
  end.

#[global] Instance playerAtStart_decision σ p0 p1 r : Decision (playerAtStart σ p0 p1 r).
Proof. unfold playerAtStart. destruct (σ !! r); apply _. Defined.

(** The assignments to [playerAtStart.x] and [playerAtStart.y]. *)
Definition moveTo (el : CanvasElement) (x y : R) : CanvasElement :=
  {| el_id := el_id el; el_type := el_type el; el_x := x; el_y := y;
     el_points := el_points el; el_position := el_position el;
     el_team := el_team el; el_text := el_text el |}.

(** The body of [arrowElements.forEach(arrow => ...)]. *)
Definition animateArrow (progress : R) (animatedElements : list Ref)
    (σ : Store) (arrow : Ref) : Store :=
  match σ !! arrow with
  | Some a =>
      match el_points a with
      | Some (startX :: startY :: endX :: endY :: _) =>
          match list_find (playerAtStart σ startX startY) animatedElements with
          | Some (_, r) =>
              match σ !! r with
              | Some el =>
                  <[r := moveTo el
                           (startX + ((endX - startX) * progress / 100))%R
                           (startY + ((endY - startY) * progress / 100))%R]> σ
              | None => σ
              end
          | None => σ
          end
      | _ => σ   (* [!arrow.points || arrow.points.length < 4] *)
      end
  | None => σ
  end.

(** The arrow filter and the [forEach] loop, on the cloned array. *)
Definition isArrowAt (σ : Store) (r : Ref) : Prop :=
  if σ !! r is Some el then isArrowType (el_type el) else False.

#[global] Instance isArrowAt_decision σ r : Decision (isArrowAt σ r).
Proof. unfold isArrowAt. destruct (σ !! r); apply _. Defined.

Definition arrowElementsOf (σ : Store) (animatedElements : list Ref) : list Ref :=
  filter (isArrowAt σ) animatedElements.

Definition animateInPlace (progress : R) (σ : Store) (animatedElements : list Ref) : Store :=
  foldl (animateArrow progress animatedElements) σ
        (arrowElementsOf σ animatedElements).

(** The loop read on values: the store is the collection itself and the
    references are its indices. *)
Definition animateValues (progress : R) (l : list CanvasElement) : list CanvasElement :=
  animateInPlace progress l (seq 0 (length l)).

(** The position the loop assigns, read in exact arithmetic. *)
Definition interpolate (start finish progress : R) : R :=
  (start + ((finish - start) * progress / 100))%R.






(** The player [el] lies within 20 units, on both axes, of the start of an
    arrow of the collection [l] that has its four points. *)
Definition matchedBy (l : list CanvasElement) (el : CanvasElement) : Prop :=
  ∃ a startX startY endX endY rest,
    a ∈ l ∧ isArrowType (el_type a) ∧
    el_points a = Some (startX :: startY :: endX :: endY :: rest) ∧
    (Rabs (el_x el - startX) < 20)%R ∧ (Rabs (el_y el - startY) < 20)%R.

(** [el'] is [el] placed on an arrow of the collection [l], at
    [start + (end - start) * progress / 100]. *)
Definition placedOnArrow (progress : R) (l : list CanvasElement)
    (el el' : CanvasElement) : Prop :=
  ∃ a startX startY endX endY rest,
    a ∈ l ∧ isArrowType (el_type a) ∧
    el_points a = Some (startX :: startY :: endX :: endY :: rest) ∧
    el' = moveTo el (startX + ((endX - startX) * progress / 100))%R
                    (startY + ((endY - startY) * progress / 100))%R.

(** [el'] is the player [el] repositioned by an arrow. *)
Definition repositionedBy (progress : R) (l : list CanvasElement)
    (el el' : CanvasElement) : Prop :=
  el_type el = "player" ∧ matchedBy l el ∧ placedOnArrow progress l el el'.

(** An element passes through [animate] unchanged or is a player
    repositioned by an arrow. *)
Definition passedOrRepositioned (progress : R) (l : list CanvasElement)
    (el el' : CanvasElement) : Prop :=
  el' = el ∨ repositionedBy progress l el el'.

(** Sample elements: a player five units to the right of the start of a move
    arrow, and a second arrow with the same start. *)
Definition nearPlayer : CanvasElement :=
  mkElement "p1" "player" 105 100 None (Some "A") (Some blue) None.
Definition anArrow : CanvasElement :=
  mkElement "a1" "moveArrow" 100 100 (Some [100; 100; 200; 150]%R) None None None.

(** ** The history hook ([useCanvasState]) *)

Module CanvasState.

Definition initialHistory : HistoryState := mkHistory [] [] [].

Definition setElements (newElements : list CanvasElement) (prev : HistoryState) : HistoryState :=
  {| past := past prev ++ [present prev];
     present := newElements;
     future := [] |}.

(** [fresh] is the value [nanoid()] returns when the element has no id. *)
Definition addElement (fresh : string) (element : CanvasElement) (prev : HistoryState) : HistoryState :=
  let element :=
    if decide (el_id element = "")
    then spread element (mkChanges (Some fresh) None None None None None None None)
    else element in
  {| past := past prev ++ [present prev];
     present := present prev ++ [element];
     future := [] |}.

Definition updateElement (id : string) (changes : ElementChanges) (prev : HistoryState) : HistoryState :=
  {| past := past prev ++ [present prev];
     present := (λ el, if decide (el_id el = id) then spread el changes else el) <$> present prev;
     future := [] |}.

Definition removeElement (id : string) (prev : HistoryState) : HistoryState :=
  {| past := past prev ++ [present prev];
     present := filter (λ el, el_id el ≠ id) (present prev);
     future := [] |}.

Definition clearElements (prev : HistoryState) : HistoryState :=
  {| past := past prev ++ [present prev];
     present := [];
     future := [] |}.

Definition undoAction (prev : HistoryState) : HistoryState :=
  if decide (length (past prev) = 0) then prev
  else
    let '(popped, newPast) := pop (past prev) in
    let newPresent := default [] popped in
    {| past := newPast;
       present := newPresent;
       future := present prev :: future prev |}.

Definition redoAction (prev : HistoryState) : HistoryState :=
  if decide (length (future prev) = 0) then prev
  else
    let '(shifted, newFuture) := shift (future prev) in
    let newPresent := default [] shifted in
    {| past := past prev ++ [present prev];
       present := newPresent;
       future := newFuture |}.

(** [getAnimatedElements(progress)]: [elements] is the array of the current
    [history.present], given as references into [σ]. *)
Definition getAnimatedElements (progress : R) (σ : Store) (elements : list Ref)
    : Store * list Ref :=
  let '(σ, animatedElements) := jsonClone σ elements in
  (animateInPlace progress σ animatedElements, animatedElements).

(** The mutating operations of the hook, as data. *)
Inductive Push :=
  | SetElements (newElements : list CanvasElement)
  | AddElement (fresh : string) (element : CanvasElement)
  | UpdateElement (id : string) (changes : ElementChanges)
  | RemoveElement (id : string)
  | ClearElements.

Definition push (op : Push) : HistoryState → HistoryState :=
  match op with
  | SetElements l => setElements l
  | AddElement fresh e => addElement fresh e
  | UpdateElement id ch => updateElement id ch
  | RemoveElement id => removeElement id
  | ClearElements => clearElements
  end.

Definition pushes (ops : list Push) (h : HistoryState) : HistoryState :=
  foldl (λ h op, push op h) h ops.

End CanvasState.

(** ** Geometry helpers (canvas utilities)

    [CanvasUtils] reads the formulas in exact real arithmetic; [Binary64]
    below reads the same formulas as they are executed. *)

Module CanvasUtils.
Local Open Scope R_scope.

(** [Math.pow(v, 2)] is [v ^ 2]. *)
Definition distance (x1 y1 x2 y2 : R) : R :=
  sqrt ((x2 - x1) ^ 2 + (y2 - y1) ^ 2).

(** [threshold = 5] is the default of the optional last parameter. *)
Definition isPointNearLine (px py x1 y1 x2 y2 : R) (threshold : option R) : bool :=
  let threshold := default 5 threshold in
  let lineLength := distance x1 y1 x2 y2 in
  if decide (lineLength = 0) then bool_decide (distance px py x1 y1 <= threshold)
  else
    let t := ((px - x1) * (x2 - x1) + (py - y1) * (y2 - y1)) / (lineLength * lineLength) in
    if decide (t < 0) then bool_decide (distance px py x1 y1 <= threshold)
    else if decide (t > 1) then bool_decide (distance px py x2 y2 <= threshold)
    else
      let projX := x1 + t * (x2 - x1) in
      let projY := y1 + t * (y2 - y1) in
      bool_decide (distance px py projX projY <= threshold).

Definition isPointInCircle (px py cx cy radius : R) : bool :=
  bool_decide (distance px py cx cy <= radius).

(** The scalar projection [t] of [p] onto the line through [a] and [b]. *)
Definition projection (px py x1 y1 x2 y2 : R) : R :=
  ((px - x1) * (x2 - x1) + (py - y1) * (y2 - y1)) /
  (distance x1 y1 x2 y2 * distance x1 y1 x2 y2).

(** The distance from [p] to the segment from [a] to [b] is at most
    [threshold]: some point [a + s (b - a)], [0 <= s <= 1], of the segment
    lies within [threshold] of [p]. *)
Definition withinOfSegment (px py x1 y1 x2 y2 threshold : R) : Prop :=
  ∃ s, 0 <= s <= 1 ∧
       distance px py (x1 + s * (x2 - x1)) (y1 + s * (y2 - y1)) <= threshold.

End CanvasUtils.

(** ** The same arithmetic in IEEE 754 binary64

    [number] is binary64 with round-to-nearest-even; [+], [-], [*], [/] and
    [Math.sqrt] are the correctly rounded operations and [<], [<=], [===]
    the IEEE comparisons (false on [NaN], [+0] equal to [-0]).
    [Math.pow(v, 2)] is taken to be the correctly rounded square [v * v]; it
    is exact on the integer coordinates of the examples. *)

Module Binary64.
Import PrimFloat.
Local Open Scope float_scope.

Definition pow2 (v : float) : float := v * v.

Definition distance (x1 y1 x2 y2 : float) : float :=
  sqrt (pow2 (x2 - x1) + pow2 (y2 - y1)).

(** The scalar projection [t], as [isPointNearLine] and the arrow hit test
    compute it. *)
Definition projection (px py x1 y1 x2 y2 : float) : float :=
  let lineLength := distance x1 y1 x2 y2 in
  ((px - x1) * (x2 - x1) + (py - y1) * (y2 - y1)) / (lineLength * lineLength).

Definition isPointNearLine (px py x1 y1 x2 y2 : float) (threshold : option float) : bool :=
  let threshold := default 5 threshold in
  let lineLength := distance x1 y1 x2 y2 in
  if lineLength =? 0 then distance px py x1 y1 <=? threshold
  else
    let t := ((px - x1) * (x2 - x1) + (py - y1) * (y2 - y1)) / (lineLength * lineLength) in
    if t <? 0 then distance px py x1 y1 <=? threshold
    else if 1 <? t then distance px py x2 y2 <=? threshold
    else
      let projX := x1 + t * (x2 - x1) in
      let projY := y1 + t * (y2 - y1) in
      distance px py projX projY <=? threshold.

(** The arrow branch of [isPointInElement] of the field editor, on the four
    points [[x1, y1, x2, y2]] of the arrow. *)
Definition isPointInArrow (x y x1 y1 x2 y2 : float) : bool :=
  let lineLength := sqrt (pow2 (x2 - x1) + pow2 (y2 - y1)) in
  if lineLength =? 0 then false
  else
    let t := ((x - x1) * (x2 - x1) + (y - y1) * (y2 - y1)) / (lineLength * lineLength) in
    if t <? 0 then false
    else if 1 <? t then false
    else
      let projX := x1 + t * (x2 - x1) in
      let projY := y1 + t * (y2 - y1) in
      let distance := sqrt (pow2 (x - projX) + pow2 (y - projY)) in
      distance <=? 10.

(** The position the animation assigns:
    [start + ((end - start) * progress / 100)]. *)
Definition interpolate (start finish progress : float) : float :=
  start + ((finish - start) * progress / 100).

(** Classes of binary64 values, on their specification: a finite number
    (a zero, a subnormal or a normal number), and a number that is not
    negative ([NaN], [+0], a positive number or [+Infinity]). *)
Definition finiteSF (X : SpecFloat.spec_float) : Prop :=
  match X with
  | SpecFloat.S754_zero _ | SpecFloat.S754_finite _ _ _ => True
  | _ => False
  end.

Definition notNegativeSF (X : SpecFloat.spec_float) : Prop :=
  match X with
  | SpecFloat.S754_nan | SpecFloat.S754_zero false
  | SpecFloat.S754_infinity false | SpecFloat.S754_finite false _ _ => True
  | _ => False
  end.

End Binary64.

(** ** The field editor component ([LacrosseField]) *)

(** [Array.prototype.find] and [Array.prototype.findLast]. *)
Definition arrayFind {A} (P : A → Prop) `{∀ a, Decision (P a)} (l : list A) : option A :=
  snd <$> list_find P l.
Definition arrayFindLast {A} (P : A → Prop) `{∀ a, Decision (P a)} (l : list A) : option A :=
  snd <$> list_find P (reverse l).

Module LacrosseField.
Local Open Scope R_scope.

Inductive Tool :=
  | select | player | ball | moveArrow | passArrow | shootArrow | text | eraser.

(** The string a tool is at run time. *)
Definition toolId (t : Tool) : string :=
  match t with
  | select => "select" | player => "player" | ball => "ball"
  | moveArrow => "moveArrow" | passArrow => "passArrow"
  | shootArrow => "shootArrow" | text => "text" | eraser => "eraser"
  end.

Inductive ActiveTeam := onlyBlue | onlyRed | both.

Record Dragging := mkDragging { drag_id : string; offsetX : R; offsetY : R }.

Record State := mkState {
  elements : list CanvasElement;
  history : HistoryState;
  selectedTool : Tool;
  activeTeam : ActiveTeam;
  customPosition : string;
  isDrawing : bool;
  startPoint : option (R * R);
  dragging : option Dragging;
  isAnimating : bool;
  animationProgress : R;
  playName : string;
  selectedElementId : option string
}.

(** The [useState] defaults. *)
Definition initialState : State :=
  {| elements := []; history := mkHistory [] [] [];
     selectedTool := select; activeTeam := both; customPosition := "X";
     isDrawing := false; startPoint := None; dragging := None;
     isAnimating := false; animationProgress := 0;
     playName := "Untitled Play"; selectedElementId := None |}.

(** The state setters; [setElements] and [setHistory] take the updater
    function [prev => ...]. *)
Definition setElements (f : list CanvasElement → list CanvasElement) (st : State) : State :=
  mkState (f (elements st)) (history st) (selectedTool st) (activeTeam st)
    (customPosition st) (isDrawing st) (startPoint st) (dragging st)
    (isAnimating st) (animationProgress st) (playName st) (selectedElementId st).
Definition setHistory (f : HistoryState → HistoryState) (st : State) : State :=
  mkState (elements st) (f (history st)) (selectedTool st) (activeTeam st)
    (customPosition st) (isDrawing st) (startPoint st) (dragging st)
    (isAnimating st) (animationProgress st) (playName st) (selectedElementId st).
Definition setSelectedTool (t : Tool) (st : State) : State :=
  mkState (elements st) (history st) t (activeTeam st)
    (customPosition st) (isDrawing st) (startPoint st) (dragging st)
    (isAnimating st) (animationProgress st) (playName st) (selectedElementId st).
Definition setIsDrawing (b : bool) (st : State) : State :=
  mkState (elements st) (history st) (selectedTool st) (activeTeam st)
    (customPosition st) b (startPoint st) (dragging st)
    (isAnimating st) (animationProgress st) (playName st) (selectedElementId st).
Definition setStartPoint (p : option (R * R)) (st : State) : State :=
  mkState (elements st) (history st) (selectedTool st) (activeTeam st)
    (customPosition st) (isDrawing st) p (dragging st)
    (isAnimating st) (animationProgress st) (playName st) (selectedElementId st).
Definition setDragging (d : option Dragging) (st : State) : State :=
  mkState (elements st) (history st) (selectedTool st) (activeTeam st)
    (customPosition st) (isDrawing st) (startPoint st) d
    (isAnimating st) (animationProgress st) (playName st) (selectedElementId st).
Definition setIsAnimating (b : bool) (st : State) : State :=
  mkState (elements st) (history st) (selectedTool st) (activeTeam st)
    (customPosition st) (isDrawing st) (startPoint st) (dragging st)
    b (animationProgress st) (playName st) (selectedElementId st).
Definition setAnimationProgress (p : R) (st : State) : State :=
  mkState (elements st) (history st) (selectedTool st) (activeTeam st)
    (customPosition st) (isDrawing st) (startPoint st) (dragging st)
    (isAnimating st) p (playName st) (selectedElementId st).
Definition setSelectedElementId (i : option string) (st : State) : State :=
  mkState (elements st) (history st) (selectedTool st) (activeTeam st)
    (customPosition st) (isDrawing st) (startPoint st) (dragging st)
    (isAnimating st) (animationProgress st) (playName st) i.

(** Add element with history. *)
Definition addElement (element : CanvasElement) (st : State) : State :=
  setElements (λ prev, prev ++ [element])
    (setHistory (λ prev, {| past := past prev ++ [present prev];
                            present := present prev ++ [element];
                            future := [] |}) st).

(** Update element with history. *)
Definition updateElement (id : string) (changes : ElementChanges) (st : State) : State :=
  setElements (λ prev, (λ el, if decide (el_id el = id) then spread el changes else el) <$> prev)
    (setHistory (λ prev, {| past := past prev ++ [present prev];
                            present := (λ el, if decide (el_id el = id) then spread el changes else el)
                                         <$> present prev;
                            future := [] |}) st).

(** Remove element with history. *)
Definition removeElement (id : string) (st : State) : State :=
  setElements (λ prev, filter (λ el, el_id el ≠ id) prev)
    (setHistory (λ prev, {| past := past prev ++ [present prev];
                            present := filter (λ el, el_id el ≠ id) (present prev);
                            future := [] |}) st).

Definition undo (st : State) : State :=
  let prev := history st in
  if decide (length (past prev) = 0%nat) then st
  else
    let '(popped, newPast) := pop (past prev) in
    let newPresent := default [] popped in
    setHistory (λ _, {| past := newPast;
                        present := newPresent;
                        future := present prev :: future prev |})
      (setElements (λ _, newPresent) st).

Definition redo (st : State) : State :=
  let prev := history st in
  if decide (length (future prev) = 0%nat) then st
  else
    let '(shifted, newFuture) := shift (future prev) in
    let newPresent := default [] shifted in
    setHistory (λ _, {| past := past prev ++ [present prev];
                        present := newPresent;
                        future := newFuture |})
      (setElements (λ _, newPresent) st).

(** Check if point is inside an element.  An arrow whose [points] has fewer
    than four entries destructures to [undefined]; every comparison on the
    resulting [NaN] is false, so the test answers [false].  The arrow branch
    is read here in exact arithmetic; [Binary64.isPointInArrow] is the same
    branch as executed, where the rounding of [t] can decide the test at the
    very ends of an arrow. *)
Definition isPointInElement (x y : R) (element : CanvasElement) : bool :=
  if decide (el_type element = "player" ∨ el_type element = "ball") then
    let radius := if decide (el_type element = "player") then 15 else 8 in
    bool_decide (sqrt ((x - el_x element) ^ 2 + (y - el_y element) ^ 2) <= radius)
  else if decide (el_type element = "text") then
    bool_decide (x >= el_x element ∧ x <= el_x element + 80 ∧
                 y >= el_y element - 10 ∧ y <= el_y element + 10)
  else if decide (isArrowType (el_type element)) then
    match el_points element with
    | Some (x1 :: y1 :: x2 :: y2 :: _) =>
        let lineLength := sqrt ((x2 - x1) ^ 2 + (y2 - y1) ^ 2) in
        if decide (lineLength = 0) then false
        else
          let t := ((x - x1) * (x2 - x1) + (y - y1) * (y2 - y1)) / (lineLength * lineLength) in
          if decide (t < 0) then false
          else if decide (t > 1) then false
          else
            let projX := x1 + t * (x2 - x1) in
            let projY := y1 + t * (y2 - y1) in
            let distance := sqrt ((x - projX) ^ 2 + (y - projY) ^ 2) in
            bool_decide (distance <= 10)
    | _ => false
    end
  else false.

(** [generated] is the result of [generateId()], [prompted] the answer to
    [prompt('Enter text:')] ([None] for a cancelled prompt). *)
Definition handleMouseDown (button : Z) (pos : R * R) (generated : string)
    (prompted : option string) (st : State) : State :=
  if decide (button ≠ 0%Z) then st
  else
    match selectedTool st with
    | select =>
        match arrayFindLast (λ el, isPointInElement pos.1 pos.2 el = true) (elements st) with
        | Some clickedElement =>
            setDragging (Some {| drag_id := el_id clickedElement;
                                 offsetX := pos.1 - el_x clickedElement;
                                 offsetY := pos.2 - el_y clickedElement |})
              (setSelectedElementId (Some (el_id clickedElement)) st)
        | None => setSelectedElementId None st
        end
    | eraser =>
        match arrayFind (λ el, isPointInElement pos.1 pos.2 el = true) (elements st) with
        | Some elementToErase => removeElement (el_id elementToErase) st
        | None => st
        end
    | moveArrow | passArrow | shootArrow =>
        setStartPoint (Some pos) (setIsDrawing true st)
    | player =>
        addElement
          {| el_id := generated; el_type := "player"; el_x := pos.1; el_y := pos.2;
             el_points := None;
             el_position := Some (if decide (customPosition st = "") then "X"
                                  else customPosition st);
             el_team := Some blue; el_text := None |} st
    | ball =>
        addElement
          {| el_id := generated; el_type := "ball"; el_x := pos.1; el_y := pos.2;
             el_points := None; el_position := None; el_team := None;
             el_text := None |} st
    | text =>
        match prompted with
        | Some txt =>
            if decide (txt = "") then st
            else addElement
                   {| el_id := generated; el_type := "text"; el_x := pos.1; el_y := pos.2;
                      el_points := None; el_position := None; el_team := None;
                      el_text := Some txt |} st
        | None => st
        end
    end.

(** The preview arrow of [handleMouseMove], as an element and as the
    changes of an update. *)
Definition arrowData (tool : Tool) (startPoint pos : R * R) : CanvasElement :=
  {| el_id := "tempArrow"; el_type := toolId tool;
     el_x := startPoint.1; el_y := startPoint.2;
     el_points := Some [startPoint.1; startPoint.2; pos.1; pos.2];
     el_position := None; el_team := None; el_text := None |}.

Definition arrowDataChanges (tool : Tool) (startPoint pos : R * R) : ElementChanges :=
  {| ch_id := Some "tempArrow"; ch_type := Some (toolId tool);
     ch_x := Some startPoint.1; ch_y := Some startPoint.2;
     ch_points := Some [startPoint.1; startPoint.2; pos.1; pos.2];
     ch_position := None; ch_team := None; ch_text := None |}.

Definition handleMouseMove (pos : R * R) (st : State) : State :=
  match dragging st with
  | Some d =>
      updateElement (drag_id d)
        (mkChanges None None (Some (pos.1 - offsetX d)) (Some (pos.2 - offsetY d))
                   None None None None) st
  | None =>
      match isDrawing st, startPoint st with
      | true, Some sp =>
          match arrayFind (λ el, el_id el = "tempArrow") (elements st) with
          | Some _ => updateElement "tempArrow" (arrowDataChanges (selectedTool st) sp pos) st
          | None => addElement (arrowData (selectedTool st) sp pos) st
          end
      | _, _ => st
      end
  end.

Definition handleMouseUp (pos : R * R) (generated : string) (st : State) : State :=
  let st :=
    match isDrawing st, startPoint st with
    | true, Some sp =>
        (* Remove temporary arrow *)
        let st := removeElement "tempArrow" st in
        (* Only add arrow if it has some length *)
        let st :=
          if decide (Rabs (sp.1 - pos.1) > 5 ∨ Rabs (sp.2 - pos.2) > 5) then
            addElement
              {| el_id := generated; el_type := toolId (selectedTool st);
                 el_x := sp.1; el_y := sp.2;
                 el_points := Some [sp.1; sp.2; pos.1; pos.2];
                 el_position := None; el_team := None; el_text := None |} st
          else st in
        setStartPoint None (setIsDrawing false st)
    | _, _ => st
    end in
  setDragging None st.

Definition toggleAnimation (st : State) : State :=
  setAnimationProgress 0 (setIsAnimating (negb (isAnimating st)) st).

(** [elements] of the state is given as the array of references [els] into
    [σ]. *)
Definition getAnimatedElements (st : State) (σ : Store) (els : list Ref) : Store * list Ref :=
  if negb (isAnimating st) then (σ, els)
  else
    let '(σ, animatedElements) := jsonClone σ els in
    (animateInPlace (animationProgress st) σ animatedElements, animatedElements).

(** What the user can do to the component. *)
Inductive Event :=
  | MouseDown (button : Z) (pos : R * R) (generated : string) (prompted : option string)
  | MouseMove (pos : R * R)
  | MouseUp (pos : R * R) (generated : string)
  | ChooseTool (t : Tool)
  | ClickUndo
  | ClickRedo
  | ClickPlay
  | Scrub (progress : R).

Definition step (st : State) (ev : Event) : State :=
  match ev with
  | MouseDown button pos generated prompted => handleMouseDown button pos generated prompted st
  | MouseMove pos => handleMouseMove pos st
  | MouseUp pos generated => handleMouseUp pos generated st
  | ChooseTool t => setSelectedTool t st
  | ClickUndo => undo st
  | ClickRedo => redo st
  | ClickPlay => toggleAnimation st
  | Scrub progress => setAnimationProgress progress st
  end.

Definition run (evs : list Event) (st : State) : State := foldl step st evs.

(** The operations of the component that push a history entry, as data. *)
Inductive Push :=
  | AddElement (element : CanvasElement)
  | UpdateElement (id : string) (changes : ElementChanges)
  | RemoveElement (id : string).

Definition push (op : Push) : State → State :=
  match op with
  | AddElement e => addElement e
  | UpdateElement id ch => updateElement id ch
  | RemoveElement id => removeElement id
  end.

Definition pushes (ops : list Push) (st : State) : State :=
  foldl (λ st op, push op st) st ops.

(** The snapshots a history holds. *)
Definition snapshots (h : HistoryState) : list (list CanvasElement) :=
  past h ++ [present h] ++ future h.

Definition isPreview (el : CanvasElement) : Prop := el_id el = "tempArrow".
Definition notPreview (el : CanvasElement) : Prop := el_id el ≠ "tempArrow".

(** [elements] and [history.present] hold the same collection. *)
Definition inSync (st : State) : Prop := elements st = present (history st).

End LacrosseField.

(** ** The page editor ([LacrossePage]) *)

Module LacrossePage.
Local Open Scope R_scope.

Record Player := mkPlayer {
  player_id : string; player_x : R; player_y : R;
  player_position : string; player_team : Team }.

(** [type] is ['move' | 'pass' | 'shoot'], the tool the arrow was drawn with. *)
Record Arrow := mkArrow {
  arrow_id : string; arrow_type : string;
  startX : R; startY : R; endX : R; endY : R }.

Record Ball := mkBall { ball_id : string; ball_x : R; ball_y : R }.

Record PlayData := mkPlayData {
  pd_players : list Player; pd_arrows : list Arrow; pd_balls : list Ball;
  pd_name : string }.

Inductive Tool := select | player | ball | move | pass | shoot | erase.

Definition toolId (t : Tool) : string :=
  match t with
  | select => "select" | player => "player" | ball => "ball"
  | move => "move" | pass => "pass" | shoot => "shoot" | erase => "erase"
  end.

(** [['move', 'pass', 'shoot'].includes(selectedTool)]. *)
Definition isArrowTool (t : Tool) : bool :=
  match t with move | pass | shoot => true | _ => false end.

Record History := mkPageHistory {
  past : list PlayData; current : PlayData; future : list PlayData }.

Record State := mkState {
  players : list Player;
  arrows : list Arrow;
  balls : list Ball;
  playName : string;
  selectedTool : Tool;
  isDrawing : bool;
  startPoint : option (R * R);
  selectedElement : option (string * string);
  history : History
}.

Definition setArrows (f : list Arrow → list Arrow) (st : State) : State :=
  mkState (players st) (f (arrows st)) (balls st) (playName st) (selectedTool st)
    (isDrawing st) (startPoint st) (selectedElement st) (history st).
Definition setIsDrawing (b : bool) (st : State) : State :=
  mkState (players st) (arrows st) (balls st) (playName st) (selectedTool st)
    b (startPoint st) (selectedElement st) (history st).
Definition setStartPoint (p : option (R * R)) (st : State) : State :=
  mkState (players st) (arrows st) (balls st) (playName st) (selectedTool st)
    (isDrawing st) p (selectedElement st) (history st).
Definition setHistory (f : History → History) (st : State) : State :=
  mkState (players st) (arrows st) (balls st) (playName st) (selectedTool st)
    (isDrawing st) (startPoint st) (selectedElement st) (f (history st)).

(** Add current state to history.  [players], [arrows], [balls] and
    [playName] are the values of the render the handler belongs to, here
    the state [rendered]. *)
Definition addToHistory (rendered : State) (st : State) : State :=
  setHistory (λ prev, {| past := past prev ++ [current prev];
                         current := mkPlayData (players rendered) (arrows rendered)
                                      (balls rendered) (playName rendered);
                         future := [] |}) st.

Definition handleMouseUp (pos : R * R) (generated : string) (rendered : State) : State :=
  let st := rendered in
  let st :=
    match isDrawing rendered, startPoint rendered with
    | true, Some sp =>
        if isArrowTool (selectedTool rendered) then
          (* Create a new arrow if it has some length *)
          if decide (Rabs (sp.1 - pos.1) > 5 ∨ Rabs (sp.2 - pos.2) > 5) then
            let newArrow := {| arrow_id := generated;
                               arrow_type := toolId (selectedTool rendered);
                               startX := sp.1; startY := sp.2;
                               endX := pos.1; endY := pos.2 |} in
            setArrows (λ prev, prev ++ [newArrow]) (addToHistory rendered st)
          else st
        else st
    | _, _ => st
    end in
  (* Reset states *)
  let st := setStartPoint None (setIsDrawing false st) in
  (* If we were dragging something in select mode, add to history *)
  match selectedTool rendered, selectedElement rendered with
  | select, Some _ => addToHistory rendered st
  | _, _ => st
  end.

(** Check if a point is inside a circle (player/ball). *)
Definition isPointInCircle (x y cx cy radius : R) : bool :=
  bool_decide (sqrt ((x - cx) ^ 2 + (y - cy) ^ 2) <= radius).

Definition setPlayers (f : list Player → list Player) (st : State) : State :=
  mkState (f (players st)) (arrows st) (balls st) (playName st) (selectedTool st)
    (isDrawing st) (startPoint st) (selectedElement st) (history st).
Definition setBalls (f : list Ball → list Ball) (st : State) : State :=
  mkState (players st) (arrows st) (f (balls st)) (playName st) (selectedTool st)
    (isDrawing st) (startPoint st) (selectedElement st) (history st).
Definition setPlayName (n : string) (st : State) : State :=
  mkState (players st) (arrows st) (balls st) n (selectedTool st)
    (isDrawing st) (startPoint st) (selectedElement st) (history st).

(** The effect that runs after a render: "Save current state to history
    when it changes". *)
Definition syncCurrent (st : State) : State :=
  setHistory (λ prev, {| past := past prev;
                         current := mkPlayData (players st) (arrows st) (balls st)
                                      (playName st);
                         future := future prev |}) st.

(** [history.current] is the play on the field. *)
Definition synced (st : State) : Prop :=
  current (history st) = mkPlayData (players st) (arrows st) (balls st) (playName st).

(** Undo.  [newPast.pop()!] is defined, the length having been checked. *)
Definition handleUndo (rendered : State) : State :=
  let history := history rendered in
  if decide (length (past history) = 0%nat) then rendered
  else
    match pop (past history) with
    | (Some previous, newPast) =>
        setPlayName (pd_name previous)
          (setBalls (λ _, pd_balls previous)
             (setArrows (λ _, pd_arrows previous)
                (setPlayers (λ _, pd_players previous)
                   (setHistory (λ _, {| past := newPast;
                                        current := previous;
                                        future := current history :: future history |})
                      rendered))))
    | (None, _) => rendered
    end.

(** Redo. *)
Definition handleRedo (rendered : State) : State :=
  let history := history rendered in
  if decide (length (future history) = 0%nat) then rendered
  else
    match shift (future history) with
    | (Some next, newFuture) =>
        setPlayName (pd_name next)
          (setBalls (λ _, pd_balls next)
             (setArrows (λ _, pd_arrows next)
                (setPlayers (λ _, pd_players next)
                   (setHistory (λ _, {| past := past history ++ [current history];
                                        current := next;
                                        future := newFuture |})
                      rendered))))
    | (None, _) => rendered
    end.

(** The body of [arrows.forEach(arrow => ...)] on the cloned players;
    [progress] is [animationProgress / 100]. *)
Definition animateArrow (progress : R) (animatedPlayers : list Player) (arrow : Arrow)
    : list Player :=
  match list_find (λ p, isPointInCircle (startX arrow) (startY arrow)
                          (player_x p) (player_y p) 20 = true) animatedPlayers with
  | Some (i, playerAtStart) =>
      <[i := {| player_id := player_id playerAtStart;
                player_x := startX arrow + ((endX arrow - startX arrow) * progress);
                player_y := startY arrow + ((endY arrow - startY arrow) * progress);
                player_position := player_position playerAtStart;
                player_team := player_team playerAtStart |}]> animatedPlayers
  | None => animatedPlayers
  end.

(** Get animated elements based on progress (0-100).  [isAnimating] and
    [animationProgress] are the two pieces of component state the animation
    reads. *)
Definition getAnimatedElements (isAnimating : bool) (animationProgress : R) (st : State)
    : list Player * list Arrow * list Ball :=
  if negb isAnimating then (players st, arrows st, balls st)
  else
    let progress := animationProgress / 100 in
    (foldl (animateArrow progress) (players st) (arrows st), arrows st, balls st).

End LacrossePage.

(** ** The server: schemas, storage and routes *)

Module Server.

(** A JSON value; an object is its list of key/value pairs. *)
#[warnings="-register-all"]
Inductive Json :=
  | JNull
  | JBool (b : bool)
  | JNum (q : Q)
  | JStr (s : string)
  | JArr (items : list Json)
  | JObj (fields : list (string * Json)).

(** [obj[key]]; [None] is [undefined]. *)
Fixpoint getKey (key : string) (fields : list (string * Json)) : option Json :=
  match fields with
  | [] => None
  | (k, v) :: rest => if decide (k = key) then Some v else getKey key rest
  end.

(** [{ ...obj, key: v }]. *)
Definition setKey (key : string) (v : Json) (fields : list (string * Json))
    : list (string * Json) :=
  filter (λ kv, kv.1 ≠ key) fields ++ [(key, v)].

(** The own enumerable keys a spread copies.  An array or a primitive body
    contributes index keys or nothing; none of them is a key the schemas
    below read, so they are left out. *)
Definition ownFields (j : Json) : list (string * Json) :=
  match j with
  | JObj fields => fields
  | _ => []
  end.

(** JavaScript truthiness of a JSON value. *)
Definition truthy (j : Json) : bool :=
  match j with
  | JNull => false
  | JBool b => b
  | JNum q => negb (Qeq_bool q 0)
  | JStr s => bool_decide (s ≠ "")
  | JArr _ | JObj _ => true
  end.

(** *** Zod *)

Inductive Seg := Key (k : string) | Index (i : nat).

Inductive IssueKind := Required | InvalidType | InvalidEnumValue.

Record Issue := mkIssue { issue_path : list Seg; issue_kind : IssueKind }.

(** What a call can throw. *)
Inductive Thrown := ZodError (issues : list Issue) | OtherError.

Inductive Result (A : Type) :=
  | Returned (a : A)
  | Threw (e : Thrown).
Arguments Returned {A} a.
Arguments Threw {A} e.

(** A schema yields the issues of a value ([None] is [undefined]); [parse]
    throws a [ZodError] when there is at least one. *)
Definition Schema := list Seg → option Json → list Issue.

Definition zString : Schema := λ path v,
  match v with
  | Some (JStr _) => []
  | Some _ => [mkIssue path InvalidType]
  | None => [mkIssue path Required]
  end.

Definition zNumber : Schema := λ path v,
  match v with
  | Some (JNum _) => []
  | Some _ => [mkIssue path InvalidType]
  | None => [mkIssue path Required]
  end.

Definition isInteger (q : Q) : bool := bool_decide (Qden (Qred q) = 1%positive).

Definition zInt : Schema := λ path v,
  match v with
  | Some (JNum q) => if isInteger q then [] else [mkIssue path InvalidType]
  | Some _ => [mkIssue path InvalidType]
  | None => [mkIssue path Required]
  end.

Definition zEnum (values : list string) : Schema := λ path v,
  match v with
  | Some (JStr s) => if decide (s ∈ values) then [] else [mkIssue path InvalidEnumValue]
  | Some _ => [mkIssue path InvalidType]
  | None => [mkIssue path Required]
  end.

Definition zOptional (inner : Schema) : Schema := λ path v,
  match v with
  | None => []
  | Some _ => inner path v
  end.

Definition zArray (inner : Schema) : Schema := λ path v,
  match v with
  | Some (JArr items) =>
      concat (imap (λ i item, inner (path ++ [Index i]) (Some item)) items)
  | Some _ => [mkIssue path InvalidType]
  | None => [mkIssue path Required]
  end.

Definition zObject (shape : list (string * Schema)) : Schema := λ path v,
  match v with
  | Some (JObj fields) =>
      concat ((λ ks : string * Schema, ks.2 (path ++ [Key ks.1]) (getKey ks.1 fields)) <$> shape)
  | Some _ => [mkIssue path InvalidType]
  | None => [mkIssue path Required]
  end.

(** The JSON schema of a [jsonb] column: any JSON value, but not [undefined]. *)
Definition zJson : Schema := λ path v,
  match v with
  | Some _ => []
  | None => [mkIssue path Required]
  end.

Definition parse (schema : Schema) (v : Json) : Result Json :=
  match schema [] (Some v) with
  | [] => Returned v
  | issues => Threw (ZodError issues)
  end.

(** [canvasElementSchema] of the shared schema. *)
Definition canvasElementSchema : Schema :=
  zObject
    [ ("id", zString);
      ("type", zEnum ["player"; "ball"; "moveArrow"; "passArrow"; "shootArrow"; "text"]);
      ("x", zNumber);
      ("y", zNumber);
      ("points", zOptional (zArray zNumber));
      ("position", zOptional zString);
      ("team", zOptional (zEnum ["blue"; "red"]));
      ("text", zOptional zString) ].

(** [insertPlaySchema = createInsertSchema(plays).pick({name, folderId,
    userId, canvas})]: the schema the library derives from the table, a
    string for the [text] column, an integer for the [integer] columns and
    any JSON for the [jsonb] column. *)
Definition insertPlaySchema : Schema :=
  zObject [ ("name", zString); ("folderId", zInt); ("userId", zInt); ("canvas", zJson) ].

Definition insertFolderSchema : Schema :=
  zObject [ ("name", zString); ("userId", zInt) ].

(** *** Rows *)

Record InsertPlay := mkInsertPlay {
  ip_name : string; ip_folderId : Z; ip_userId : Z; ip_canvas : Json }.

Record PartialInsertPlay := mkPartialInsertPlay {
  up_name : option string; up_folderId : option Z; up_userId : option Z;
  up_canvas : option Json }.

(** What the update handed to [updatePlay] can carry at run time.  The
    parameter is declared [Partial<InsertPlay>], but the route passes
    [req.body] as it came ("We don't validate the full schema here"), and the
    spread [{ ...play, ...playUpdate, updatedAt }] copies every own key of it
    over the stored play: [id] and [createdAt] as well as the four declared
    keys; [updatedAt] is overwritten afterwards.  A value is taken to have
    the type of the key it overwrites. *)
Record PlayUpdate := mkPlayUpdate {
  pu_id : option Z; pu_name : option string; pu_folderId : option Z;
  pu_userId : option Z; pu_canvas : option Json; pu_createdAt : option Z }.

(** An update of the declared type carries the four declared keys only. *)
Definition declared (playUpdate : PartialInsertPlay) : PlayUpdate :=
  {| pu_id := None; pu_name := up_name playUpdate;
     pu_folderId := up_folderId playUpdate; pu_userId := up_userId playUpdate;
     pu_canvas := up_canvas playUpdate; pu_createdAt := None |}.
Coercion declared : PartialInsertPlay >-> PlayUpdate.

Record Play := mkPlay {
  play_id : Z; play_name : string; play_folderId : Z; play_userId : Z;
  play_canvas : Json; play_createdAt : Z; play_updatedAt : Z }.

Record InsertFolder := mkInsertFolder { if_name : string; if_userId : Z }.

Record Folder := mkFolder {
  folder_id : Z; folder_name : string; folder_userId : Z; folder_createdAt : Z }.

Record InsertUser := mkInsertUser { iu_username : string; iu_password : string }.

Record User := mkUser { user_id : Z; user_username : string; user_password : string }.

(** The value of a key the schema has accepted. *)
Definition asString (v : option Json) : string :=
  if v is Some (JStr s) then s else "".
Definition asInt (v : option Json) : Z :=
  if v is Some (JNum q) then Qnum (Qred q) else 0%Z.

(** The typed value [insertPlaySchema.parse] returns. *)
Definition parseInsertPlay (fields : list (string * Json)) : Result InsertPlay :=
  match insertPlaySchema [] (Some (JObj fields)) with
  | [] => Returned {| ip_name := asString (getKey "name" fields);
                      ip_folderId := asInt (getKey "folderId" fields);
                      ip_userId := asInt (getKey "userId" fields);
                      ip_canvas := default JNull (getKey "canvas" fields) |}
  | issues => Threw (ZodError issues)
  end.

(** *** The storage interface; [now] is the clock read by [new Date()]. *)

Class IStorage (S : Type) := {
  createFolder : Z → InsertFolder → S → Result Folder * S;
  deleteFolder : Z → S → Result bool * S;
  getPlays : Z → S → Result (list Play);
  getPlay : Z → S → Result (option Play);
  createPlay : Z → InsertPlay → S → Result Play * S;
  deletePlay : Z → S → Result bool * S
}.

(** [{ ...play, ...playUpdate, updatedAt: now }]. *)
Definition applyUpdate (now : Z) (play : Play) (playUpdate : PlayUpdate) : Play :=
  {| play_id := default (play_id play) (pu_id playUpdate);
     play_name := default (play_name play) (pu_name playUpdate);
     play_folderId := default (play_folderId play) (pu_folderId playUpdate);
     play_userId := default (play_userId play) (pu_userId playUpdate);
     play_canvas := default (play_canvas play) (pu_canvas playUpdate);
     play_createdAt := default (play_createdAt play) (pu_createdAt playUpdate);
     play_updatedAt := now |}.

(** Most recently updated first: the comparator
    [(a, b) => b.updatedAt.getTime() - a.updatedAt.getTime()]. *)
Definition newerFirst (a b : Play) : Prop := (play_updatedAt b ≤ play_updatedAt a)%Z.
#[global] Instance newerFirst_decision a b : Decision (newerFirst a b).
Proof. unfold newerFirst. apply _. Defined.

(** *** [MemStorage] *)

Record MemStorage := mkMemStorage {
  users : gmap Z User;
  folders : gmap Z Folder;
  plays : gmap Z Play;
  currentUserId : Z;
  currentFolderId : Z;
  currentPlayId : Z
}.

(** [Array.from(map.values())]. *)
Definition values {A} (m : gmap Z A) : list A := (map_to_list m).*2.

Module Mem.

Definition createUser (insertUser : InsertUser) (s : MemStorage) : User * MemStorage :=
  let id := currentUserId s in
  let user := {| user_id := id; user_username := iu_username insertUser;
                 user_password := iu_password insertUser |} in
  (user, mkMemStorage (<[id := user]> (users s)) (folders s) (plays s)
           (currentUserId s + 1) (currentFolderId s) (currentPlayId s)).

Definition getFolders (userId : Z) (s : MemStorage) : list Folder :=
  filter (λ folder, folder_userId folder = userId) (values (folders s)).

Definition getFolder (id : Z) (s : MemStorage) : option Folder := folders s !! id.

Definition createFolder (now : Z) (insertFolder : InsertFolder) (s : MemStorage)
    : Folder * MemStorage :=
  let id := currentFolderId s in
  let folder := {| folder_id := id; folder_name := if_name insertFolder;
                   folder_userId := if_userId insertFolder;
                   folder_createdAt := now |} in
  (folder, mkMemStorage (users s) (<[id := folder]> (folders s)) (plays s)
             (currentUserId s) (currentFolderId s + 1) (currentPlayId s)).

Definition deleteFolder (id : Z) (s : MemStorage) : bool * MemStorage :=
  (* Delete all plays in this folder first *)
  let playsInFolder := filter (λ play, play_folderId play = id) (values (plays s)) in
  let plays' := foldl (λ m play, delete (play_id play) m) (plays s) playsInFolder in
  (bool_decide (is_Some (folders s !! id)),
   mkMemStorage (users s) (delete id (folders s)) plays'
     (currentUserId s) (currentFolderId s) (currentPlayId s)).

Definition getPlays (folderId : Z) (s : MemStorage) : list Play :=
  merge_sort newerFirst
    (filter (λ play, play_folderId play = folderId) (values (plays s))).

Definition getPlay (id : Z) (s : MemStorage) : option Play := plays s !! id.

(** The id counter is advanced before the canvas is validated. *)
Definition createPlay (now : Z) (insertPlay : InsertPlay) (s : MemStorage)
    : Result Play * MemStorage :=
  let id := currentPlayId s in
  let s := mkMemStorage (users s) (folders s) (plays s)
             (currentUserId s) (currentFolderId s) (currentPlayId s + 1) in
  (* Validate canvas data *)
  match parse (zArray canvasElementSchema) (ip_canvas insertPlay) with
  | Threw e => (Threw e, s)
  | Returned _ =>
      let play := {| play_id := id; play_name := ip_name insertPlay;
                     play_folderId := ip_folderId insertPlay;
                     play_userId := ip_userId insertPlay;
                     play_canvas := ip_canvas insertPlay;
                     play_createdAt := now; play_updatedAt := now |} in
      (Returned play,
       mkMemStorage (users s) (folders s) (<[id := play]> (plays s))
         (currentUserId s) (currentFolderId s) (currentPlayId s))
  end.

Definition updatePlay (now : Z) (id : Z) (playUpdate : PlayUpdate) (s : MemStorage)
    : Result (option Play) * MemStorage :=
  match plays s !! id with
  | None => (Returned None, s)
  | Some play =>
      (* If canvas is updated, validate it *)
      let validation :=
        match pu_canvas playUpdate with
        | Some canvas =>
            if truthy canvas then parse (zArray canvasElementSchema) canvas
            else Returned canvas
        | None => Returned JNull
        end in
      match validation with
      | Threw e => (Threw e, s)
      | Returned _ =>
          let updatedPlay := applyUpdate now play playUpdate in
          (Returned (Some updatedPlay),
           mkMemStorage (users s) (folders s) (<[id := updatedPlay]> (plays s))
             (currentUserId s) (currentFolderId s) (currentPlayId s))
      end
  end.

Definition deletePlay (id : Z) (s : MemStorage) : bool * MemStorage :=
  (bool_decide (is_Some (plays s !! id)),
   mkMemStorage (users s) (folders s) (delete id (plays s))
     (currentUserId s) (currentFolderId s) (currentPlayId s)).

(** The constructor: a demo user and three default folders. *)
Definition constructor (now : Z) : MemStorage :=
  let s := mkMemStorage ∅ ∅ ∅ 1 1 1 in
  let s := (createUser (mkInsertUser "demo" "password") s).2 in
  let s := (createFolder now (mkInsertFolder "Offense Plays" 1) s).2 in
  let s := (createFolder now (mkInsertFolder "Defense Plays" 1) s).2 in
  (createFolder now (mkInsertFolder "Face-off Strategies" 1) s).2.

(** The calls that change a [MemStorage]. *)
Inductive Call :=
  | CreateUser (insertUser : InsertUser)
  | CreateFolder (now : Z) (insertFolder : InsertFolder)
  | DeleteFolder (id : Z)
  | CreatePlay (now : Z) (insertPlay : InsertPlay)
  | UpdatePlay (now : Z) (id : Z) (playUpdate : PlayUpdate)
  | DeletePlay (id : Z).

Definition call (s : MemStorage) (c : Call) : MemStorage :=
  match c with
  | CreateUser u => (createUser u s).2
  | CreateFolder now f => (createFolder now f s).2
  | DeleteFolder id => (deleteFolder id s).2
  | CreatePlay now p => (createPlay now p s).2
  | UpdatePlay now id u => (updatePlay now id u s).2
  | DeletePlay id => (deletePlay id s).2
  end.

(** Every play is stored under its own id. *)
Definition keyedById (s : MemStorage) : Prop :=
  ∀ k play, plays s !! k = Some play → play_id play = k.

(** The states a [MemStorage] can be in. *)
Definition stored (s : MemStorage) : Prop :=
  ∃ now calls, s = foldl call (constructor now) calls.

(** A call that leaves the [id] of every play alone: every call but an
    update whose body carries an [id] other than the one it is stored
    under. *)
Definition keepsId (c : Call) : Prop :=
  match c with
  | UpdatePlay _ id playUpdate => pu_id playUpdate = None ∨ pu_id playUpdate = Some id
  | _ => True
  end.

End Mem.

#[global] Instance MemStorage_IStorage : IStorage MemStorage := {
  createFolder now f s := let '(r, s) := Mem.createFolder now f s in (Returned r, s);
  deleteFolder id s := let '(r, s) := Mem.deleteFolder id s in (Returned r, s);
  getPlays id s := Returned (Mem.getPlays id s);
  getPlay id s := Returned (Mem.getPlay id s);
  createPlay := Mem.createPlay;
  deletePlay id s := let '(r, s) := Mem.deletePlay id s in (Returned r, s)
}.

(** *** [DatabaseStorage] *)

(** Modelled from the spec: the relational store behind [db], which is not
    part of the sources.  A table is the list of its rows; an insert assigns
    the next value of the [serial] id and the [defaultNow()] timestamps and
    returns the stored row.  A statement fails only where a constraint of
    the shared schema says so. *)
Record Database := mkDatabase {
  folders_table : list Folder;
  plays_table : list Play;
  folders_id_seq : Z;
  plays_id_seq : Z
}.

Module Db.

Definition createFolder (now : Z) (insertFolder : InsertFolder) (db : Database)
    : Folder * Database :=
  let folder := {| folder_id := folders_id_seq db; folder_name := if_name insertFolder;
                   folder_userId := if_userId insertFolder; folder_createdAt := now |} in
  (folder, mkDatabase (folders_table db ++ [folder]) (plays_table db)
             (folders_id_seq db + 1) (plays_id_seq db)).

Definition deleteFolder (id : Z) (db : Database) : bool * Database :=
  let deleted := filter (λ f, folder_id f = id) (folders_table db) in
  (bool_decide (deleted ≠ []),
   mkDatabase (filter (λ f, folder_id f ≠ id) (folders_table db)) (plays_table db)
     (folders_id_seq db) (plays_id_seq db)).

Definition getPlays (folderId : Z) (db : Database) : list Play :=
  merge_sort newerFirst (filter (λ p, play_folderId p = folderId) (plays_table db)).

Definition getPlay (id : Z) (db : Database) : option Play :=
  head (filter (λ p, play_id p = id) (plays_table db)).

(** [db.insert(plays).values(insertPlay).returning()].  The column is
    [jsonb("canvas").notNull()]: a canvas of [null] violates the constraint,
    the statement throws and no row is added, the serial value being used up
    all the same.  Any other canvas is stored without being looked at (the
    order [jsonb] gives to the keys of an object is not modelled). *)
Definition createPlay (now : Z) (insertPlay : InsertPlay) (db : Database)
    : Result Play * Database :=
  let play := {| play_id := plays_id_seq db; play_name := ip_name insertPlay;
                 play_folderId := ip_folderId insertPlay;
                 play_userId := ip_userId insertPlay;
                 play_canvas := ip_canvas insertPlay;
                 play_createdAt := now; play_updatedAt := now |} in
  match ip_canvas insertPlay with
  | JNull =>
      (Threw OtherError,
       mkDatabase (folders_table db) (plays_table db)
         (folders_id_seq db) (plays_id_seq db + 1))
  | _ =>
      (Returned play,
       mkDatabase (folders_table db) (plays_table db ++ [play])
         (folders_id_seq db) (plays_id_seq db + 1))
  end.

Definition deletePlay (id : Z) (db : Database) : bool * Database :=
  let deleted := filter (λ p, play_id p = id) (plays_table db) in
  (bool_decide (deleted ≠ []),
   mkDatabase (folders_table db) (filter (λ p, play_id p ≠ id) (plays_table db))
     (folders_id_seq db) (plays_id_seq db)).

End Db.

#[global] Instance DatabaseStorage_IStorage : IStorage Database := {
  createFolder now f db := let '(r, db) := Db.createFolder now f db in (Returned r, db);
  deleteFolder id db := let '(r, db) := Db.deleteFolder id db in (Returned r, db);
  getPlays id db := Returned (Db.getPlays id db);
  getPlay id db := Returned (Db.getPlay id db);
  createPlay := Db.createPlay;
  deletePlay id db := let '(r, db) := Db.deletePlay id db in (Returned r, db)
}.

(** *** Routes *)

(** The message of a response: a literal, or what [fromZodError] renders
    from the issues of a [ZodError]. *)
Inductive Message :=
  | Literal (s : string)
  | ValidationMessage (issues : list Issue).

Inductive Body :=
  | PlayBody (play : Play)
  | MessageBody (message : Message)
  | NoBody.

Record Response := mkResponse { status : Z; body : Body }.

Definition fromZodError (issues : list Issue) : Message := ValidationMessage issues.

(** [app.post("/api/plays", ...)]: [try { ... } catch (error) { ... }]. *)
Definition postPlays {S} `{IStorage S} (now : Z) (reqBody : Json) (storage : S)
    : Response * S :=
  (* Validate the request body *)
  match parseInsertPlay (setKey "userId" (JNum 1) (ownFields reqBody)) with
  | Returned parsed =>
      match createPlay now parsed storage with
      | (Returned play, storage) => (mkResponse 201 (PlayBody play), storage)
      | (Threw (ZodError issues), storage) =>
          (mkResponse 400 (MessageBody (fromZodError issues)), storage)
      | (Threw OtherError, storage) =>
          (mkResponse 500 (MessageBody (Literal "Failed to create play")), storage)
      end
  | Threw (ZodError issues) =>
      (mkResponse 400 (MessageBody (fromZodError issues)), storage)
  | Threw OtherError =>
      (mkResponse 500 (MessageBody (Literal "Failed to create play")), storage)
  end.

(** A request body whose canvas holds an element without [type], and one
    whose canvas is valid. *)
Definition bodyMissingType : Json :=
  JObj [ ("name", JStr "Fast break"); ("folderId", JNum 1);
         ("canvas", JArr [ JObj [ ("id", JStr "e1"); ("x", JNum 0); ("y", JNum 0) ] ]) ].

Definition bodyValid : Json :=
  JObj [ ("name", JStr "Fast break"); ("folderId", JNum 1);
         ("canvas", JArr [ JObj [ ("id", JStr "e1"); ("type", JStr "player");
                                  ("x", JNum 0); ("y", JNum 0) ] ]) ].

(** [export const storage = new DatabaseStorage()]: the storage the routes
    are wired to. *)
Definition postPlaysRoute (now : Z) (reqBody : Json) (db : Database) : Response * Database :=
  postPlays now reqBody db.

(** The routes below take [id], the value of [parseInt(req.params.id)],
    with [None] for [NaN]. *)

(** [app.get("/api/plays/:id", ...)]. *)
Definition getPlayRoute {S} `{IStorage S} (id : option Z) (storage : S) : Response :=
  match id with
  | None => mkResponse 400 (MessageBody (Literal "Invalid play ID"))
  | Some id =>
      match getPlay id storage with
      | Returned (Some play) => mkResponse 200 (PlayBody play)
      | Returned None => mkResponse 404 (MessageBody (Literal "Play not found"))
      | Threw _ => mkResponse 500 (MessageBody (Literal "Failed to fetch play"))
      end
  end.

(** [app.delete("/api/plays/:id", ...)]. *)
Definition deletePlayRoute {S} `{IStorage S} (id : option Z) (storage : S) : Response * S :=
  match id with
  | None => (mkResponse 400 (MessageBody (Literal "Invalid play ID")), storage)
  | Some id =>
      match deletePlay id storage with
      | (Returned true, storage) => (mkResponse 204 NoBody, storage)
      | (Returned false, storage) =>
          (mkResponse 404 (MessageBody (Literal "Play not found")), storage)
      | (Threw _, storage) =>
          (mkResponse 500 (MessageBody (Literal "Failed to delete play")), storage)
      end
  end.

(** [app.delete("/api/folders/:id", ...)]. *)
Definition deleteFolderRoute {S} `{IStorage S} (id : option Z) (storage : S) : Response * S :=
  match id with
  | None => (mkResponse 400 (MessageBody (Literal "Invalid folder ID")), storage)
  | Some id =>
      match deleteFolder id storage with
      | (Returned true, storage) => (mkResponse 204 NoBody, storage)
      | (Returned false, storage) =>
          (mkResponse 404 (MessageBody (Literal "Folder not found")), storage)
      | (Threw _, storage) =>
          (mkResponse 500 (MessageBody (Literal "Failed to delete folder")), storage)
      end
  end.

(** The ids below the counters: what [MemStorage] has handed out. *)
Definition idsBelowCounters (s : MemStorage) : Prop :=
  (∀ k u, users s !! k = Some u → (k < currentUserId s)%Z) ∧
  (∀ k f, folders s !! k = Some f → (k < currentFolderId s)%Z) ∧
  (∀ k p, plays s !! k = Some p → (k < currentPlayId s)%Z).

(** A JSON value that [canvasElementSchema] accepts. *)
Definition validElement (item : Json) : Prop := canvasElementSchema [] (Some item) = [].

(** What the schema asks of an element, key by key. *)
Definition isString (j : Json) : Prop := ∃ s, j = JStr s.
Definition isNumber (j : Json) : Prop := ∃ q, j = JNum q.
Definition isOneOf (values : list string) (j : Json) : Prop :=
  ∃ s, j = JStr s ∧ s ∈ values.
Definition isNumberArray (j : Json) : Prop :=
  ∃ items, j = JArr items ∧ Forall isNumber items.

Definition required (P : Json → Prop) (v : option Json) : Prop := ∃ j, v = Some j ∧ P j.
Definition optional (P : Json → Prop) (v : option Json) : Prop :=
  v = None ∨ ∃ j, v = Some j ∧ P j.

Definition wellTypedElement (item : Json) : Prop :=
  ∃ fields, item = JObj fields ∧
    required isString (getKey "id" fields) ∧
    required (isOneOf ["player"; "ball"; "moveArrow"; "passArrow"; "shootArrow"; "text"])
      (getKey "type" fields) ∧
    required isNumber (getKey "x" fields) ∧
    required isNumber (getKey "y" fields) ∧
    optional isNumberArray (getKey "points" fields) ∧
    optional isString (getKey "position" fields) ∧
    optional (isOneOf ["blue"; "red"]) (getKey "team" fields) ∧
    optional isString (getKey "text" fields).

End Server.

(** ** The sidebar ([Sidebar]) on top of the hook *)

Module Sidebar.

Inductive ToolId :=
  | select | player | ball | moveArrow | passArrow | shootArrow | text | eraser | clear.

(** The sidebar's own [selectedTool], and the [currentTool] and [history] of
    the hook it is given. *)
Record State := mkState {
  selectedTool : ToolId;
  currentTool : ToolId;
  history : HistoryState
}.

(** [confirmed] is the answer to [confirm('Are you sure ...')]. *)
Definition handleToolClick (toolId : ToolId) (confirmed : bool) (st : State) : State :=
  let st := mkState toolId toolId (history st) in
  match toolId with
  | clear =>
      (* Special case for clear tool *)
      let st := if confirmed
                then mkState (selectedTool st) (currentTool st)
                       (CanvasState.clearElements (history st))
                else st in
      (* Reset to select tool after clearing *)
      mkState select select (history st)
  | _ => st
  end.

Definition handleUndo (st : State) : State :=
  mkState (selectedTool st) (currentTool st) (CanvasState.undoAction (history st)).

Definition handleRedo (st : State) : State :=
  mkState (selectedTool st) (currentTool st) (CanvasState.redoAction (history st)).

End Sidebar.

(** ** The editor page ([Editor]): zoom controls *)

Module Editor.

Definition initialZoom : Z := 100.
Definition handleZoomIn (zoomLevel : Z) : Z := Z.min (zoomLevel + 10) 150.
Definition handleZoomOut (zoomLevel : Z) : Z := Z.max (zoomLevel - 10) 50.
Definition handleResetZoom (zoomLevel : Z) : Z := 100.

Inductive ZoomClick := ZoomIn | ZoomOut | ResetZoom.

Definition click (zoomLevel : Z) (c : ZoomClick) : Z :=
  match c with
  | ZoomIn => handleZoomIn zoomLevel
  | ZoomOut => handleZoomOut zoomLevel
  | ResetZoom => handleResetZoom zoomLevel
  end.

End Editor.

(** * Part II: properties *)

(** Comparisons of the absolute value of a concrete number. *)
Ltac abs_lra := unfold Rabs; destruct (Rcase_abs _); lra.

(** ** Arithmetic in binary64

    What the properties below need of the binary64 operations, derived from
    their specification ([SpecFloat]). *)

Section Doubles.
Import SpecFloat Binary64.
Local Abbreviation prec := FloatOps.prec.
Local Abbreviation emax := FloatOps.emax.

(** Rounding to nearest does not look at the sign. *)
Lemma binary_round_aux_opp s m e l :
  binary_round_aux prec emax (negb s) m e l = SFopp (binary_round_aux prec emax s m e l).
Proof.
  unfold binary_round_aux.
  destruct (shr_fexp prec emax m e l) as [mrs' e'].
  destruct (shr_fexp prec emax _ e' loc_Exact) as [mrs'' e''].
  destruct (shr_m mrs''); simpl; try done. by destruct (Z.leb _ _).
Qed.

Lemma binary_round_opp s m e :
  binary_round prec emax (negb s) m e = SFopp (binary_round prec emax s m e).
Proof. unfold binary_round. destruct (shl_align _ _ _). apply binary_round_aux_opp. Qed.

Lemma SFopp_involutive x : SFopp (SFopp x) = x.
Proof. destruct x; simpl; by rewrite ?negb_involutive. Qed.

Lemma binary_normalize_opp z e :
  z ≠ 0%Z →
  binary_normalize prec emax (- z) e false = SFopp (binary_normalize prec emax z e false).
Proof.
  destruct z as [|p|p]; simpl; intros Hz.
  - done.
  - apply (binary_round_opp false).
  - by rewrite (binary_round_opp false), SFopp_involutive.
Qed.

Lemma SFmul_opp_opp v :
  SFmul prec emax (SFopp v) (SFopp v) = SFmul prec emax v v.
Proof. destruct v as [s|s| |s m e]; simpl; try done; by destruct s. Qed.

(** [(a - b)^2] and [(b - a)^2] are the same number. *)
Lemma SFsub_swap_sq A B :
  SFmul prec emax (SFsub prec emax A B) (SFsub prec emax A B)
  = SFmul prec emax (SFsub prec emax B A) (SFsub prec emax B A).
Proof.
  destruct A as [sa|sa| |sa ma ea], B as [sb|sb| |sb mb eb];
    try (by destruct sa, sb); try (by destruct sa); try (by destruct sb); try done.
  unfold SFsub. rewrite (Z.min_comm eb ea).
  set (ez := Z.min ea eb).
  set (zA := cond_Zopp sa (Z.pos (shl_align ma ea ez).1)).
  set (zB := cond_Zopp sb (Z.pos (shl_align mb eb ez).1)).
  replace (Z.sub zB zA) with (- (Z.sub zA zB))%Z by lia.
  destruct (decide (Z.sub zA zB = 0%Z)) as [->|Hne]; [done|].
  by rewrite binary_normalize_opp, SFmul_opp_opp.
Qed.

Lemma sq_sub_swap (a b : PrimFloat.float) :
  Binary64.pow2 (PrimFloat.sub a b) = Binary64.pow2 (PrimFloat.sub b a).
Proof.
  apply FloatAxioms.Prim2SF_inj. unfold Binary64.pow2.
  rewrite !FloatAxioms.mul_spec, !FloatAxioms.sub_spec. apply SFsub_swap_sq.
Qed.

Lemma is_finite_SF x :
  PrimFloat.is_finite x = true → finiteSF (FloatOps.Prim2SF x).
Proof.
  unfold PrimFloat.is_finite, PrimFloat.is_nan, PrimFloat.is_infinity.
  rewrite !FloatAxioms.eqb_spec, FloatAxioms.abs_spec.
  change (FloatOps.Prim2SF PrimFloat.infinity) with (S754_infinity false).
  destruct (FloatOps.Prim2SF x) as [s|s| |s m e]; simpl; try done.
  by destruct s.
Qed.

Lemma SFsub_diag X : finiteSF X → SFsub prec emax X X = S754_zero false.
Proof.
  destruct X as [s|s| |s m e]; try done; intros _.
  - by destruct s.
  - unfold SFsub. by rewrite Z.sub_diag.
Qed.

(** [x - x] is [+0] for every finite [x]. *)
Lemma sub_diag x : PrimFloat.is_finite x = true → PrimFloat.sub x x = PrimFloat.zero.
Proof.
  intros Hx%is_finite_SF. apply FloatAxioms.Prim2SF_inj.
  rewrite FloatAxioms.sub_spec. by rewrite SFsub_diag.
Qed.


Lemma SFleb_trans X Y Z :
  SFleb X Y = true → SFleb Y Z = true → SFleb X Z = true.
Proof.
  unfold SFleb, SFcompare.
  destruct X as [s1|s1| |s1 m1 e1], Y as [s2|s2| |s2 m2 e2], Z as [s3|s3| |s3 m3 e3];
    try done; try (by destruct s1, s2, s3).
  rewrite !Pos.compare_cont_spec. simpl.
  destruct s1, s2, s3; try done;
    destruct (Z.compare_spec e1 e2), (Z.compare_spec e2 e3), (Z.compare_spec e1 e3);
    try done; try lia; subst;
    destruct (Pos.compare_spec m1 m2), (Pos.compare_spec m2 m3), (Pos.compare_spec m1 m3);
    simpl; try done; try lia.
Qed.

(** [<=] on binary64 is transitive. *)
Lemma leb_trans x y z :
  PrimFloat.leb x y = true → PrimFloat.leb y z = true → PrimFloat.leb x z = true.
Proof. rewrite !FloatAxioms.leb_spec. apply SFleb_trans. Qed.

Lemma binary_round_aux_notNegative m e l :
  notNegativeSF (binary_round_aux prec emax false m e l).
Proof.
  unfold binary_round_aux.
  destruct (shr_fexp prec emax m e l) as [mrs' e'].
  destruct (shr_fexp prec emax _ e' loc_Exact) as [mrs'' e''].
  destruct (shr_m mrs''); simpl; try done. by destruct (Z.leb _ _).
Qed.

Lemma binary_round_notNegative m e : notNegativeSF (binary_round prec emax false m e).
Proof.
  unfold binary_round. destruct (shl_align _ _ _).
  apply binary_round_aux_notNegative.
Qed.

Lemma SFmul_self_notNegative V : notNegativeSF (SFmul prec emax V V).
Proof.
  destruct V as [s|s| |s m e]; simpl; try done; try (by destruct s).
  replace (xorb s s) with false by (by destruct s).
  apply binary_round_aux_notNegative.
Qed.

Lemma SFadd_notNegative X Y :
  notNegativeSF X → notNegativeSF Y → notNegativeSF (SFadd prec emax X Y).
Proof.
  destruct X as [[]|[]| |[] mx ex], Y as [[]|[]| |[] my ey]; try done.
  intros _ _. unfold SFadd, cond_Zopp, binary_normalize.
  destruct (Z.pos _ + Z.pos _)%Z eqn:Hsum; try lia.
  apply binary_round_notNegative.
Qed.

Lemma SFsqrt_notNegative X : notNegativeSF X → notNegativeSF (SFsqrt prec emax X).
Proof.
  destruct X as [[]|[]| |[] m e]; try done. intros _. unfold SFsqrt.
  destruct (SFsqrt_core_binary _ _ _ _) as [[mz ez] lz].
  apply binary_round_aux_notNegative.
Qed.

Lemma SFltb_notNegative X : notNegativeSF X → SFltb X (S754_zero false) = false.
Proof. by destruct X as [[]|[]| |[] m e]. Qed.


End Doubles.

(** ** History *)

Section History.
Import CanvasState.

Lemma pop_snoc {A} (l : list A) (a : A) : pop (l ++ [a]) = (Some a, l).
Proof. unfold pop. by rewrite last_snoc, removelast_last. Qed.

Lemma snoc_of_nonempty {A} (l : list A) : l ≠ [] → ∃ l' a, l = l' ++ [a].
Proof. intros Hne. destruct (exists_last Hne) as (l' & a & ->). by exists l', a. Qed.

Lemma undoAction_snoc ps p c f :
  undoAction (mkHistory (ps ++ [p]) c f) = mkHistory ps p (c :: f).
Proof.
  unfold undoAction; cbn [past present future]. rewrite pop_snoc.
  case_decide as H; [|done]. rewrite length_app in H; simpl in H; lia.
Qed.

Lemma redoAction_cons ps c n f :
  redoAction (mkHistory ps c (n :: f)) = mkHistory (ps ++ [c]) n f.
Proof. done. Qed.

Lemma length_past_undoAction h :
  length (past (undoAction h)) = pred (length (past h)).
Proof.
  destruct h as [ps c f]. destruct (decide (ps = [])) as [->|Hne]; [done|].
  destruct (snoc_of_nonempty ps Hne) as (ps' & p & ->).
  rewrite undoAction_snoc; simpl. rewrite length_app; simpl. lia.
Qed.

Lemma redoAction_undoAction h :
  past h ≠ [] → redoAction (undoAction h) = h.
Proof.
  destruct h as [ps c f]; simpl. intros Hne.
  destruct (snoc_of_nonempty ps Hne) as (ps' & p & ->).
  by rewrite undoAction_snoc, redoAction_cons.
Qed.

(** [k] undos followed by [k] redos give back the whole triple. *)
Lemma redo_undo_iter k : ∀ h,
  k ≤ length (past h) →
  Nat.iter k redoAction (Nat.iter k undoAction h) = h.
Proof.
  induction k as [|k IH]; intros h Hk; [done|].
  rewrite (Nat.iter_succ_r k undoAction h), (Nat.iter_succ k redoAction).
  rewrite IH by (rewrite length_past_undoAction; lia).
  apply redoAction_undoAction. destruct (past h); [simpl in Hk; lia|done].
Qed.

(** The component keeps [elements] equal to [history.present]; its undo and
    redo act on the history as the hook's do. *)
Lemma history_undo st :
  LacrosseField.history (LacrosseField.undo st) = undoAction (LacrosseField.history st).
Proof.
  unfold LacrosseField.undo, undoAction.
  case_decide; [done|]. by destruct (pop _).
Qed.

Lemma history_redo st :
  LacrosseField.history (LacrosseField.redo st) = redoAction (LacrosseField.history st).
Proof.
  unfold LacrosseField.redo, redoAction.
  case_decide; [done|]. by destruct (shift _).
Qed.

Lemma inSync_undo st : LacrosseField.inSync st → LacrosseField.inSync (LacrosseField.undo st).
Proof.
  unfold LacrosseField.inSync, LacrosseField.undo. case_decide; [done|]. by destruct (pop _).
Qed.

Lemma inSync_redo st : LacrosseField.inSync st → LacrosseField.inSync (LacrosseField.redo st).
Proof.
  unfold LacrosseField.inSync, LacrosseField.redo. case_decide; [done|]. by destruct (shift _).
Qed.

Lemma inSync_push op st : LacrosseField.inSync st → LacrosseField.inSync (LacrosseField.push op st).
Proof. unfold LacrosseField.inSync. destruct op; simpl; by intros ->. Qed.

Lemma inSync_pushes ops : ∀ st, LacrosseField.inSync st → LacrosseField.inSync (LacrosseField.pushes ops st).
Proof.
  induction ops as [|op ops IH]; intros st Hs; [done|].
  apply IH, inSync_push, Hs.
Qed.

Lemma history_iter_undo k st :
  LacrosseField.history (Nat.iter k LacrosseField.undo st)
  = Nat.iter k undoAction (LacrosseField.history st).
Proof. induction k as [|k IH]; [done|]. simpl. by rewrite history_undo, IH. Qed.

Lemma history_iter_redo k st :
  LacrosseField.history (Nat.iter k LacrosseField.redo st)
  = Nat.iter k redoAction (LacrosseField.history st).
Proof. induction k as [|k IH]; [done|]. simpl. by rewrite history_redo, IH. Qed.

Lemma inSync_iter_undo k st : LacrosseField.inSync st → LacrosseField.inSync (Nat.iter k LacrosseField.undo st).
Proof. intros Hs. induction k as [|k IH]; [done|]. simpl. by apply inSync_undo. Qed.

Lemma inSync_iter_redo k st : LacrosseField.inSync st → LacrosseField.inSync (Nat.iter k LacrosseField.redo st).
Proof. intros Hs. induction k as [|k IH]; [done|]. simpl. by apply inSync_redo. Qed.

(** C1: after any pushes, [k] undos followed by [k] redos, with [k] at most
    the number of entries in [past], give back the element collection held
    before the undos: in the hook [useCanvasState], and in the component
    [LacrosseField], where [elements] mirrors [history.present]. *)
Theorem undo_redo_restores_present
    (h0 : HistoryState) (ops : list CanvasState.Push)
    (st0 : LacrosseField.State) (fops : list LacrosseField.Push) (k : nat) :
  let h := pushes ops h0 in
  let st := LacrosseField.pushes fops st0 in
  (k ≤ length (past h) →
     present (Nat.iter k redoAction (Nat.iter k undoAction h)) = present h) ∧
  (k ≤ length (past (LacrosseField.history st)) →
     let st' := Nat.iter k LacrosseField.redo (Nat.iter k LacrosseField.undo st) in
     present (LacrosseField.history st') = present (LacrosseField.history st) ∧
     (LacrosseField.inSync st0 → LacrosseField.elements st' = LacrosseField.elements st)).
Proof.
  intros h st. split.
  - intros Hk. by rewrite redo_undo_iter.
  - intros Hk st'.
    assert (Hh : LacrosseField.history st' = LacrosseField.history st).
    { unfold st'. rewrite history_iter_redo, history_iter_undo. by apply redo_undo_iter. }
    split; [by rewrite Hh|].
    intros Hs0.
    assert (Hs : LacrosseField.inSync st) by by apply inSync_pushes.
    assert (Hs' : LacrosseField.inSync st') by by apply inSync_iter_redo, inSync_iter_undo.
    unfold LacrosseField.inSync in Hs, Hs'. by rewrite Hs', Hs, Hh.
Qed.

(** C1, at a concrete history: a player is added twice, then two undos and
    two redos. *)
Lemma undo_redo_restores_present_witness :
  let p := mkElement "p1" "player" 100 100 None (Some "A") (Some blue) None in
  let h := pushes [CanvasState.AddElement "n1" p; CanvasState.AddElement "n2" p]
             initialHistory in
  let st := LacrosseField.pushes
              [LacrosseField.AddElement p; LacrosseField.RemoveElement "p1"]
              LacrosseField.initialState in
  (2 ≤ length (past h) ∧
   present (Nat.iter 2 redoAction (Nat.iter 2 undoAction h)) = present h) ∧
  (2 ≤ length (past (LacrosseField.history st)) ∧
   LacrosseField.elements
     (Nat.iter 2 LacrosseField.redo (Nat.iter 2 LacrosseField.undo st))
   = LacrosseField.elements st).
Proof.
  intros p h st.
  pose proof (undo_redo_restores_present initialHistory
    [CanvasState.AddElement "n1" p; CanvasState.AddElement "n2" p]
    LacrosseField.initialState
    [LacrosseField.AddElement p; LacrosseField.RemoveElement "p1"] 2) as [H1 H2].
  split; (split; [simpl; lia|]).
  - apply H1. simpl; lia.
  - apply H2; [simpl; lia|reflexivity].
Defined.

(** C5: every push leaves [future] empty, so a redo right after a push
    changes nothing; in the hook and in the component. *)
Theorem push_clears_future
    (op : CanvasState.Push) (h : HistoryState)
    (fop : LacrosseField.Push) (st : LacrosseField.State) :
  (future (push op h) = [] ∧ redoAction (push op h) = push op h) ∧
  (future (LacrosseField.history (LacrosseField.push fop st)) = [] ∧
   LacrosseField.redo (LacrosseField.push fop st) = LacrosseField.push fop st).
Proof.
  split; split.
  - by destruct op.
  - by destruct op.
  - by destruct fop.
  - by destruct fop.
Qed.

(** C9: undo on an empty [past] and redo on an empty [future] leave the
    whole triple as it is; in the hook and in the component (where the rest
    of the state is untouched as well). *)
Theorem undo_redo_noop_on_empty (h : HistoryState) (st : LacrosseField.State) :
  (past h = [] → undoAction h = h) ∧
  (future h = [] → redoAction h = h) ∧
  (past (LacrosseField.history st) = [] → LacrosseField.undo st = st) ∧
  (future (LacrosseField.history st) = [] → LacrosseField.redo st = st).
Proof.
  repeat split.
  - intros Hp. unfold undoAction. by rewrite Hp.
  - intros Hf. unfold redoAction. by rewrite Hf.
  - intros Hp. unfold LacrosseField.undo. by rewrite Hp.
  - intros Hf. unfold LacrosseField.redo. by rewrite Hf.
Qed.

(** C9, at the empty history and at a history with one entry on each side. *)
Lemma undo_redo_noop_on_empty_witness :
  let h1 := mkHistory [] [] [[]] in
  let h2 := mkHistory [[]] [] [] in
  (past h1 = [] ∧ undoAction h1 = h1) ∧
  (future h2 = [] ∧ redoAction h2 = h2) ∧
  (past (LacrosseField.history LacrosseField.initialState) = [] ∧
   LacrosseField.undo LacrosseField.initialState = LacrosseField.initialState) ∧
  (future (LacrosseField.history LacrosseField.initialState) = [] ∧
   LacrosseField.redo LacrosseField.initialState = LacrosseField.initialState).
Proof.
  intros h1 h2.
  pose proof (undo_redo_noop_on_empty h1 LacrosseField.initialState) as (H1 & _ & H3 & H4).
  pose proof (undo_redo_noop_on_empty h2 LacrosseField.initialState) as (_ & H2 & _ & _).
  split; [|split; [|split]]; (split; [reflexivity|]).
  - apply H1; reflexivity.
  - apply H2; reflexivity.
  - apply H3; reflexivity.
  - apply H4; reflexivity.
Defined.

End History.

(** ** Geometry *)

Section Geometry.
Import CanvasUtils.
Local Open Scope R_scope.

Lemma sq_sum_nonneg (u v : R) : 0 <= u ^ 2 + v ^ 2.
Proof. nra. Qed.

Lemma distance_sqr x1 y1 x2 y2 :
  distance x1 y1 x2 y2 * distance x1 y1 x2 y2 = (x2 - x1) ^ 2 + (y2 - y1) ^ 2.
Proof. unfold distance. apply sqrt_sqrt, sq_sum_nonneg. Qed.

Lemma distance_zero x1 y1 x2 y2 :
  distance x1 y1 x2 y2 = 0 ↔ x1 = x2 ∧ y1 = y2.
Proof.
  split.
  - intros H. pose proof (distance_sqr x1 y1 x2 y2) as Hs. rewrite H in Hs.
    pose proof (pow2_ge_0 (x2 - x1)). pose proof (pow2_ge_0 (y2 - y1)).
    assert (Hx : (x2 - x1) * (x2 - x1) = 0) by lra.
    assert (Hy : (y2 - y1) * (y2 - y1) = 0) by lra.
    apply Rmult_integral in Hx, Hy. split; lra.
  - intros [-> ->]. unfold distance.
    replace ((x2 - x2) ^ 2 + (y2 - y2) ^ 2) with 0 by ring. apply sqrt_0.
Qed.

Lemma distance_mono px py ax ay bx by' :
  (ax - px) ^ 2 + (ay - py) ^ 2 <= (bx - px) ^ 2 + (by' - py) ^ 2 →
  distance px py ax ay <= distance px py bx by'.
Proof. intros H. unfold distance. by apply sqrt_le_1_alt. Qed.

Lemma distance_le_of_sq x1 y1 x2 y2 d :
  0 <= d → (x2 - x1) ^ 2 + (y2 - y1) ^ 2 <= d ^ 2 → distance x1 y1 x2 y2 <= d.
Proof.
  intros Hd H. rewrite <- (sqrt_pow2 d Hd). unfold distance. by apply sqrt_le_1_alt.
Qed.

Lemma segment_point_expand px py x1 y1 x2 y2 s :
  (x1 + s * (x2 - x1) - px) ^ 2 + (y1 + s * (y2 - y1) - py) ^ 2
  = (x1 - px) ^ 2 + (y1 - py) ^ 2
    - 2 * s * ((px - x1) * (x2 - x1) + (py - y1) * (y2 - y1))
    + s ^ 2 * ((x2 - x1) ^ 2 + (y2 - y1) ^ 2).
Proof. ring. Qed.

Lemma projection_dot px py x1 y1 x2 y2 :
  distance x1 y1 x2 y2 ≠ 0 →
  (px - x1) * (x2 - x1) + (py - y1) * (y2 - y1)
  = projection px py x1 y1 x2 y2 * ((x2 - x1) ^ 2 + (y2 - y1) ^ 2).
Proof.
  intros Hne. unfold projection. rewrite <- (distance_sqr x1 y1 x2 y2).
  field. done.
Qed.

(** The closest point of the segment: the foot of the perpendicular when the
    projection falls in [[0,1]], the nearer endpoint otherwise. *)
Lemma closest_inside px py x1 y1 x2 y2 s :
  distance x1 y1 x2 y2 ≠ 0 →
  let t := projection px py x1 y1 x2 y2 in
  distance px py (x1 + t * (x2 - x1)) (y1 + t * (y2 - y1))
  <= distance px py (x1 + s * (x2 - x1)) (y1 + s * (y2 - y1)).
Proof.
  intros Hne t. apply distance_mono.
  rewrite !segment_point_expand, (projection_dot _ _ _ _ _ _ Hne).
  fold t. generalize t; clear t; intros t.
  pose proof (sq_sum_nonneg (x2 - x1) (y2 - y1)) as HD.
  set (D := (x2 - x1) ^ 2 + (y2 - y1) ^ 2) in *.
  assert (0 <= (s - t) ^ 2 * D) by (apply Rmult_le_pos; [apply pow2_ge_0|done]).
  nra.
Qed.

Lemma closest_before px py x1 y1 x2 y2 s :
  distance x1 y1 x2 y2 ≠ 0 → 0 <= s →
  projection px py x1 y1 x2 y2 < 0 →
  distance px py x1 y1
  <= distance px py (x1 + s * (x2 - x1)) (y1 + s * (y2 - y1)).
Proof.
  intros Hne Hs0 Ht. apply distance_mono.
  rewrite segment_point_expand, (projection_dot _ _ _ _ _ _ Hne).
  revert Ht. generalize (projection px py x1 y1 x2 y2); intros t Ht.
  pose proof (sq_sum_nonneg (x2 - x1) (y2 - y1)) as HD.
  set (D := (x2 - x1) ^ 2 + (y2 - y1) ^ 2) in *.
  assert (0 <= s ^ 2 * D) by (apply Rmult_le_pos; [apply pow2_ge_0|done]).
  assert (0 <= s * (- t * D)) by (repeat apply Rmult_le_pos; lra).
  nra.
Qed.

Lemma closest_after px py x1 y1 x2 y2 s :
  distance x1 y1 x2 y2 ≠ 0 → s <= 1 →
  projection px py x1 y1 x2 y2 > 1 →
  distance px py x2 y2
  <= distance px py (x1 + s * (x2 - x1)) (y1 + s * (y2 - y1)).
Proof.
  intros Hne Hs1 Ht. apply distance_mono.
  replace ((x2 - px) ^ 2 + (y2 - py) ^ 2)
    with ((x1 + 1 * (x2 - x1) - px) ^ 2 + (y1 + 1 * (y2 - y1) - py) ^ 2) by ring.
  rewrite !segment_point_expand, (projection_dot _ _ _ _ _ _ Hne).
  revert Ht. generalize (projection px py x1 y1 x2 y2); intros t Ht.
  pose proof (sq_sum_nonneg (x2 - x1) (y2 - y1)) as HD.
  set (D := (x2 - x1) ^ 2 + (y2 - y1) ^ 2) in *.
  assert (0 <= (1 - s) ^ 2 * D) by (apply Rmult_le_pos; [apply pow2_ge_0|done]).
  assert (0 <= (1 - s) * ((t - 1) * D)) by (repeat apply Rmult_le_pos; lra).
  nra.
Qed.

(** The four ways out of [isPointNearLine]. *)
Lemma isPointNearLine_degenerate px py x1 y1 th :
  isPointNearLine px py x1 y1 x1 y1 (Some th)
  = bool_decide (distance px py x1 y1 <= th).
Proof.
  unfold isPointNearLine; simpl.
  case_decide as H; [done|]. exfalso. apply H. by apply distance_zero.
Qed.

Lemma isPointNearLine_proper px py x1 y1 x2 y2 th :
  distance x1 y1 x2 y2 ≠ 0 →
  let t := projection px py x1 y1 x2 y2 in
  isPointNearLine px py x1 y1 x2 y2 (Some th)
  = if decide (t < 0) then bool_decide (distance px py x1 y1 <= th)
    else if decide (t > 1) then bool_decide (distance px py x2 y2 <= th)
    else bool_decide (distance px py (x1 + t * (x2 - x1)) (y1 + t * (y2 - y1)) <= th).
Proof.
  intros Hne t. unfold isPointNearLine; simpl. by case_decide.
Qed.

(** In exact arithmetic [isPointNearLine] answers [true] exactly when the
    distance from [p] to the segment [ab] is at most the threshold.  It
    compares the distance to [a] when the projection [t] is negative, the
    distance to [b] when [t] exceeds 1, the distance to the foot of the
    perpendicular otherwise, and the distance to [a] when [a] and [b]
    coincide. *)
Lemma isPointNearLine_exact (px py x1 y1 x2 y2 threshold : R) :
  0 <= threshold →
  let near := isPointNearLine px py x1 y1 x2 y2 (Some threshold) in
  let t := projection px py x1 y1 x2 y2 in
  (near = true ↔ withinOfSegment px py x1 y1 x2 y2 threshold) ∧
  (x1 = x2 ∧ y1 = y2 → near = bool_decide (distance px py x1 y1 <= threshold)) ∧
  (¬ (x1 = x2 ∧ y1 = y2) →
     (t < 0 → near = bool_decide (distance px py x1 y1 <= threshold)) ∧
     (t > 1 → near = bool_decide (distance px py x2 y2 <= threshold)) ∧
     (0 <= t <= 1 →
        near = bool_decide
                 (distance px py (x1 + t * (x2 - x1)) (y1 + t * (y2 - y1)) <= threshold))).
Proof.
  intros _ near t.
  assert (Hdeg : x1 = x2 ∧ y1 = y2 →
            near = bool_decide (distance px py x1 y1 <= threshold)).
  { intros [<- <-]. apply isPointNearLine_degenerate. }
  assert (Hprop : ¬ (x1 = x2 ∧ y1 = y2) →
            near = if decide (t < 0) then bool_decide (distance px py x1 y1 <= threshold)
                   else if decide (t > 1) then bool_decide (distance px py x2 y2 <= threshold)
                   else bool_decide (distance px py (x1 + t * (x2 - x1))
                                               (y1 + t * (y2 - y1)) <= threshold)).
  { intros Hne. apply isPointNearLine_proper. by rewrite distance_zero. }
  split; [|split; [done|]].
  - destruct (decide (x1 = x2 ∧ y1 = y2)) as [Heq|Hne].
    + rewrite (Hdeg Heq), bool_decide_eq_true. destruct Heq as [<- <-]. split.
      * intros H. exists 0. split; [lra|].
        by replace (x1 + 0 * (x1 - x1)) with x1 by ring;
           replace (y1 + 0 * (y1 - y1)) with y1 by ring.
      * intros (s & _ & H).
        by replace (x1 + s * (x1 - x1)) with x1 in H by ring;
           replace (y1 + s * (y1 - y1)) with y1 in H by ring.
    + rewrite (Hprop Hne).
      assert (Hd : distance x1 y1 x2 y2 ≠ 0) by by rewrite distance_zero.
      repeat case_decide; rewrite bool_decide_eq_true; split.
      * intros Hle. exists 0. split; [lra|].
        by replace (x1 + 0 * (x2 - x1)) with x1 by ring;
           replace (y1 + 0 * (y2 - y1)) with y1 by ring.
      * intros (s & [Hs0 Hs1] & Hle).
        eapply Rle_trans; [|exact Hle]. by apply closest_before.
      * intros Hle. exists 1. split; [lra|].
        by replace (x1 + 1 * (x2 - x1)) with x2 by ring;
           replace (y1 + 1 * (y2 - y1)) with y2 by ring.
      * intros (s & [Hs0 Hs1] & Hle).
        eapply Rle_trans; [|exact Hle]. by apply closest_after.
      * intros Hle. exists t. split; [lra|done].
      * intros (s & _ & Hle).
        eapply Rle_trans; [|exact Hle]. by apply closest_inside.
  - intros Hne. rewrite (Hprop Hne). repeat split.
    + intros Ht. by rewrite decide_True.
    + intros Ht. rewrite decide_False by lra. by rewrite decide_True.
    + intros [Ht0 Ht1]. rewrite !decide_False by lra. done.
Qed.

End Geometry.

(** ** The point-near-segment test, exact and as executed *)

Section NearSegment.
Import PrimFloat.
Local Open Scope float_scope.

Lemma distance_diag_doubles (x y : float) :
  is_finite x = true → is_finite y = true → Binary64.distance x y x y = 0.
Proof.
  intros Hx Hy. unfold Binary64.distance. by rewrite !sub_diag.
Qed.

(** For a segment whose two ends are the same finite point the executed
    test is the point-distance test. *)
Lemma isPointNearLine_degenerate_doubles (px py x1 y1 th : float) :
  is_finite x1 = true → is_finite y1 = true →
  Binary64.isPointNearLine px py x1 y1 x1 y1 (Some th)
  = (Binary64.distance px py x1 y1 <=? th).
Proof.
  intros Hx Hy. unfold Binary64.isPointNearLine.
  by rewrite (distance_diag_doubles x1 y1 Hx Hy).
Qed.

(** The branches of the executed test: the distance to [a] when the
    computed length is 0 or the computed projection is below 0, the distance
    to [b] when it is above 1, and the distance to the computed projection
    point otherwise. *)
Lemma isPointNearLine_branches_doubles (px py x1 y1 x2 y2 th : float) :
  let near := Binary64.isPointNearLine px py x1 y1 x2 y2 (Some th) in
  let t := Binary64.projection px py x1 y1 x2 y2 in
  ((Binary64.distance x1 y1 x2 y2 =? 0) = true →
     near = (Binary64.distance px py x1 y1 <=? th)) ∧
  ((Binary64.distance x1 y1 x2 y2 =? 0) = false →
     ((t <? 0) = true → near = (Binary64.distance px py x1 y1 <=? th)) ∧
     ((t <? 0) = false → (1 <? t) = true →
        near = (Binary64.distance px py x2 y2 <=? th)) ∧
     ((t <? 0) = false → (1 <? t) = false →
        near = (Binary64.distance px py (x1 + t * (x2 - x1)) (y1 + t * (y2 - y1)) <=? th))).
Proof.
  intros near t. unfold near, t, Binary64.isPointNearLine, Binary64.projection.
  cbn [default]. cbv zeta. split.
  - by intros ->.
  - intros ->. repeat split.
    + by intros ->.
    + by intros -> ->.
    + by intros -> ->.
Qed.

(** The arrow hit test is the executed [isPointNearLine] with threshold 10,
    cut down to a segment of non-zero computed length and a computed
    projection that is neither below 0 nor above 1. *)
Lemma isPointInArrow_restricts (x y x1 y1 x2 y2 : float) :
  let t := Binary64.projection x y x1 y1 x2 y2 in
  Binary64.isPointInArrow x y x1 y1 x2 y2 = true ↔
  (Binary64.distance x1 y1 x2 y2 =? 0) = false ∧
  (t <? 0) = false ∧ (1 <? t) = false ∧
  Binary64.isPointNearLine x y x1 y1 x2 y2 (Some 10) = true.
Proof.
  unfold Binary64.isPointInArrow, Binary64.isPointNearLine, Binary64.projection.
  fold (Binary64.distance x1 y1 x2 y2). cbn [default].
  set (lineLength := Binary64.distance x1 y1 x2 y2).
  set (t := ((x - x1) * (x2 - x1) + (y - y1) * (y2 - y1)) / (lineLength * lineLength)).
  cbv zeta.
  destruct (lineLength =? 0); [by split; [|intros (? & _)]|].
  destruct (t <? 0); [by split; [|intros (_ & ? & _)]|].
  destruct (1 <? t); [by split; [|intros (_ & _ & ? & _)]|].
  unfold Binary64.distance.
  rewrite (sq_sub_swap (x1 + t * (x2 - x1)) x), (sq_sub_swap (y1 + t * (y2 - y1)) y).
  split; [done|]. by intros (_ & _ & _ & ?).
Qed.

(** C4 as stated fails.  The point (5,2) lies on the segment from (0,0) to
    (10,4), so its distance to the segment is 0, yet the executed
    [isPointNearLine] refuses it at threshold 0: the line length, the
    projection and the projection point are rounded.  And the point (-3,0)
    is 3 units from the arrow from (0,0) to (10,0), yet the arrow hit test of
    [isPointInElement], whose threshold is 10, does not hit: it does not
    clamp. *)
Lemma point_within_threshold_refused :
  (CanvasUtils.withinOfSegment 5 2 0 0 10 4 0 ∧
   Binary64.isPointNearLine 5 2 0 0 10 4 (Some 0) = false) ∧
  (CanvasUtils.withinOfSegment (-3) 0 0 0 10 0 10 ∧
   Binary64.isPointInArrow (-3) 0 0 0 10 0 = false).
Proof.
  split; (split; [|reflexivity]).
  - exists (1 / 2)%R. split; [lra|].
    rewrite (proj2 (distance_zero _ _ _ _)); [lra|]. split; lra.
  - exists 0%R. split; [lra|]. apply distance_le_of_sq; lra.
Qed.

(** C4, amended.  Read in exact arithmetic, [isPointNearLine] answers
    [true] exactly when the distance from [p] to the segment is at most the
    threshold, with the clamping and the degenerate fallback the claim
    describes.  As executed in binary64 the test has the same branches, on
    the computed length and the computed projection: the distance to [a]
    when the length is 0 or the projection is below 0, the distance to [b]
    when the projection is above 1, the distance to the computed projection
    point otherwise; for a segment whose ends are the same finite point it
    is the point-distance test.  The arrow hit test of [isPointInElement] is
    not the clamped test but the executed [isPointNearLine] at threshold 10
    restricted to a segment of non-zero length and a projection within
    [[0,1]]. *)
Theorem isPointNearLine_segment_distance :
  (∀ px py x1 y1 x2 y2 threshold : R,
     (0 <= threshold)%R →
     let near := CanvasUtils.isPointNearLine px py x1 y1 x2 y2 (Some threshold) in
     let t := CanvasUtils.projection px py x1 y1 x2 y2 in
     (near = true ↔ CanvasUtils.withinOfSegment px py x1 y1 x2 y2 threshold) ∧
     (x1 = x2 ∧ y1 = y2 →
        near = bool_decide (CanvasUtils.distance px py x1 y1 <= threshold)%R) ∧
     (¬ (x1 = x2 ∧ y1 = y2) →
        ((t < 0)%R → near = bool_decide (CanvasUtils.distance px py x1 y1 <= threshold)%R) ∧
        ((t > 1)%R → near = bool_decide (CanvasUtils.distance px py x2 y2 <= threshold)%R) ∧
        ((0 <= t <= 1)%R →
           near = bool_decide
                    (CanvasUtils.distance px py (x1 + t * (x2 - x1)) (y1 + t * (y2 - y1))
                     <= threshold)%R))) ∧
  (∀ px py x1 y1 x2 y2 th : float,
     let near := Binary64.isPointNearLine px py x1 y1 x2 y2 (Some th) in
     let t := Binary64.projection px py x1 y1 x2 y2 in
     ((Binary64.distance x1 y1 x2 y2 =? 0) = true →
        near = (Binary64.distance px py x1 y1 <=? th)) ∧
     ((Binary64.distance x1 y1 x2 y2 =? 0) = false →
        ((t <? 0) = true → near = (Binary64.distance px py x1 y1 <=? th)) ∧
        ((t <? 0) = false → (1 <? t) = true →
           near = (Binary64.distance px py x2 y2 <=? th)) ∧
        ((t <? 0) = false → (1 <? t) = false →
           near = (Binary64.distance px py (x1 + t * (x2 - x1)) (y1 + t * (y2 - y1))
                   <=? th)))) ∧
  (∀ px py x1 y1 th : float,
     is_finite x1 = true → is_finite y1 = true →
     Binary64.isPointNearLine px py x1 y1 x1 y1 (Some th)
     = (Binary64.distance px py x1 y1 <=? th)) ∧
  (∀ x y x1 y1 x2 y2 : float,
     let t := Binary64.projection x y x1 y1 x2 y2 in
     Binary64.isPointInArrow x y x1 y1 x2 y2 = true ↔
     (Binary64.distance x1 y1 x2 y2 =? 0) = false ∧
     (t <? 0) = false ∧ (1 <? t) = false ∧
     Binary64.isPointNearLine x y x1 y1 x2 y2 (Some 10) = true).
Proof.
  split; [|split; [|split]].
  - intros px py x1 y1 x2 y2 threshold. apply isPointNearLine_exact.
  - apply isPointNearLine_branches_doubles.
  - apply isPointNearLine_degenerate_doubles.
  - apply isPointInArrow_restricts.
Qed.

(** C4 amended, at the point (5,1) and the segment from (0,0) to (10,0) with
    threshold 5, and at the degenerate segment at (3,4). *)
Lemma isPointNearLine_segment_distance_witness :
  ((0 <= 5)%R ∧
   (CanvasUtils.isPointNearLine 5 1 0 0 10 0 (Some 5%R) = true
    ↔ CanvasUtils.withinOfSegment 5 1 0 0 10 0 5)) ∧
  ((is_finite 3 = true ∧ is_finite 4 = true) ∧
   Binary64.isPointNearLine 0 0 3 4 3 4 (Some 5)
   = (Binary64.distance 0 0 3 4 <=? 5)).
Proof.
  pose proof isPointNearLine_segment_distance as (Hexact & _ & Hdeg & _).
  split.
  - split; [lra|]. apply (Hexact 5 1 0 0 10 0 5)%R. lra.
  - split; [split; reflexivity|]. apply (Hdeg 0 0 3 4 5); reflexivity.
Defined.

End NearSegment.

(** ** Animation *)

Section Animation.

Lemma animateArrow_length p ae (σ : Store) a :
  length (animateArrow p ae σ a) = length σ.
Proof.
  unfold animateArrow. repeat case_match; rewrite ?length_insert; done.
Qed.

Lemma foldl_animateArrow_length p ae arrows : ∀ σ : Store,
  length (foldl (animateArrow p ae) σ arrows) = length σ.
Proof.
  induction arrows as [|a arrows IH]; intros σ; [done|].
  simpl. by rewrite IH, animateArrow_length.
Qed.

Lemma playerAtStart_shift (σ l : Store) p0 p1 r :
  playerAtStart (σ ++ l) p0 p1 (length σ + r) ↔ playerAtStart l p0 p1 r.
Proof.
  unfold playerAtStart. rewrite lookup_app_r by lia.
  by replace (length σ + r - length σ) with r by lia.
Qed.

Lemma isArrowAt_shift (σ l : Store) r :
  isArrowAt (σ ++ l) (length σ + r) ↔ isArrowAt l r.
Proof.
  unfold isArrowAt. rewrite lookup_app_r by lia.
  by replace (length σ + r - length σ) with r by lia.
Qed.

(** The loop on the clones, which sit after the objects of [σ], is the loop
    on values. *)
Lemma animateArrow_shift p (σ l : Store) m j :
  animateArrow p (seq (length σ) m) (σ ++ l) (length σ + j)
  = σ ++ animateArrow p (seq 0 m) l j.
Proof.
  unfold animateArrow. rewrite lookup_app_r by lia.
  replace (length σ + j - length σ) with j by lia.
  destruct (l !! j) as [a|]; [|done].
  destruct (el_points a) as [[|startX [|startY [|endX [|endY rest]]]]|]; try done.
  replace (seq (length σ) m) with (Nat.add (length σ) <$> seq 0 m)
    by (rewrite fmap_add_seq; f_equal; lia).
  rewrite list_find_fmap.
  rewrite (list_find_ext _ (playerAtStart l startX startY))
    by (intros r; apply playerAtStart_shift).
  destruct (list_find _ _) as [[i r]|]; simpl; [|done].
  rewrite lookup_app_r by lia.
  replace (length σ + r - length σ) with r by lia.
  destruct (l !! r); [|done]. by rewrite insert_app_r.
Qed.

Lemma filter_fmap_comp {A B} (f : A → B) (P : B → Prop)
    `{!∀ y, Decision (P y)} (l : list A) :
  filter P (f <$> l) = f <$> filter (P ∘ f) l.
Proof.
  induction l as [|x l IH]; [done|]. csimpl.
  rewrite !filter_cons; simpl. case_decide; csimpl; by rewrite IH.
Qed.

Lemma arrowElementsOf_shift (σ l : Store) m :
  arrowElementsOf (σ ++ l) (seq (length σ) m)
  = Nat.add (length σ) <$> arrowElementsOf l (seq 0 m).
Proof.
  unfold arrowElementsOf.
  replace (seq (length σ) m) with (Nat.add (length σ) <$> seq 0 m)
    by (rewrite fmap_add_seq; f_equal; lia).
  rewrite filter_fmap_comp. f_equal.
  apply list_filter_iff. intros r. apply isArrowAt_shift.
Qed.

Lemma foldl_animateArrow_shift p (σ : Store) m js : ∀ l : Store,
  foldl (animateArrow p (seq (length σ) m)) (σ ++ l) (Nat.add (length σ) <$> js)
  = σ ++ foldl (animateArrow p (seq 0 m)) l js.
Proof.
  induction js as [|j js IH]; intros l; [done|].
  csimpl. by rewrite animateArrow_shift, IH.
Qed.

Lemma deref_clones (l : Store) : ∀ σ : Store,
  deref (σ ++ l) (seq (length σ) (length l)) = l.
Proof.
  unfold deref. induction l as [|x l IH]; intros σ; [done|].
  simpl. rewrite list_lookup_middle by done. simpl. f_equal.
  specialize (IH (σ ++ [x])).
  rewrite <- (assoc_L (++)), length_app in IH; simpl in IH.
  by replace (length σ + 1) with (S (length σ)) in IH by lia.
Qed.

Lemma getAnimatedElements_values p (σ : Store) (els : list Ref) :
  CanvasState.getAnimatedElements p σ els
  = (σ ++ animateValues p (deref σ els), seq (length σ) (length (deref σ els))).
Proof.
  unfold CanvasState.getAnimatedElements, jsonClone, animateValues, animateInPlace.
  fold (deref σ els). by rewrite arrowElementsOf_shift, foldl_animateArrow_shift.
Qed.

Lemma length_animateValues p l : length (animateValues p l) = length l.
Proof. apply foldl_animateArrow_length. Qed.

Lemma deref_getAnimatedElements p (σ : Store) (els : list Ref) :
  deref (CanvasState.getAnimatedElements p σ els).1
        (CanvasState.getAnimatedElements p σ els).2
  = animateValues p (deref σ els).
Proof.
  rewrite getAnimatedElements_values; simpl.
  rewrite <- (length_animateValues p (deref σ els)). apply deref_clones.
Qed.

Lemma getAnimatedElements_component st (σ : Store) (els : list Ref) :
  LacrosseField.isAnimating st = true →
  LacrosseField.getAnimatedElements st σ els
  = CanvasState.getAnimatedElements (LacrosseField.animationProgress st) σ els.
Proof. unfold LacrosseField.getAnimatedElements. by intros ->. Qed.

Lemma isArrowType_not_player t : isArrowType t → t ≠ "player".
Proof.
  unfold isArrowType, arrowTypes. rewrite !elem_of_cons, elem_of_nil.
  intros [->|[->|[->|[]]]]; discriminate.
Qed.

(** One round of the loop either leaves the collection as it is or moves
    the first player found at the start of the arrow. *)
Lemma animateArrow_cases p (l : Store) j :
  animateArrow p (seq 0 (length l)) l j = l ∨
  ∃ a startX startY endX endY rest i el,
    l !! j = Some a ∧
    el_points a = Some (startX :: startY :: endX :: endY :: rest) ∧
    list_find (playerAtStart l startX startY) (seq 0 (length l)) = Some (i, i) ∧
    l !! i = Some el ∧ el_type el = "player" ∧
    (Rabs (el_x el - startX) < 20)%R ∧ (Rabs (el_y el - startY) < 20)%R ∧
    animateArrow p (seq 0 (length l)) l j
    = <[i := moveTo el (startX + ((endX - startX) * p / 100))%R
                      (startY + ((endY - startY) * p / 100))%R]> l.
Proof.
  unfold animateArrow.
  destruct (l !! j) as [a|] eqn:Ha; [|by left].
  destruct (el_points a) as [[|startX [|startY [|endX [|endY rest]]]]|] eqn:Hp;
    try by left.
  destruct (list_find _ _) as [[i r]|] eqn:Hf; [|by left].
  pose proof Hf as (Hr & Hnear & _)%list_find_Some.
  apply lookup_seq in Hr as [-> _]; simpl in *.
  unfold playerAtStart in Hnear.
  destruct (l !! i) as [el|] eqn:Hel; [|done].
  destruct Hnear as (? & ? & ?).
  right. by exists a, startX, startY, endX, endY, rest, i, el.
Qed.

Lemma passedOrRepositioned_step p l0 el0 el a startX startY endX endY rest :
  passedOrRepositioned p l0 el0 el →
  a ∈ l0 → isArrowType (el_type a) →
  el_points a = Some (startX :: startY :: endX :: endY :: rest) →
  el_type el = "player" →
  (Rabs (el_x el - startX) < 20)%R → (Rabs (el_y el - startY) < 20)%R →
  passedOrRepositioned p l0 el0
    (moveTo el (startX + ((endX - startX) * p / 100))%R
               (startY + ((endY - startY) * p / 100))%R).
Proof.
  intros [->|(Hty & Hm & (b & ? & ? & ? & ? & ? & ? & ? & ? & ->))] Ha Harr Hp Hpl Hx Hy;
    right; (split; [done|split]).
  - by exists a, startX, startY, endX, endY, rest.
  - by exists a, startX, startY, endX, endY, rest.
  - done.
  - by exists a, startX, startY, endX, endY, rest.
Qed.

Lemma Forall2_insert_right {A B} (P : A → B → Prop) l k i x y :
  Forall2 P l k → l !! i = Some x → P x y → Forall2 P l (<[i:=y]> k).
Proof.
  intros Hlk Hx Hxy. rewrite <- (list_insert_id l i x Hx).
  by apply Forall2_insert.
Qed.

Lemma foldl_animateArrow_invariant p l0 arrows : ∀ cur : Store,
  Forall (isArrowAt l0) arrows →
  Forall2 (passedOrRepositioned p l0) l0 cur →
  Forall2 (passedOrRepositioned p l0) l0
    (foldl (animateArrow p (seq 0 (length l0))) cur arrows).
Proof.
  induction arrows as [|j arrows IH]; intros cur Harrows Hinv; [done|].
  apply Forall_cons in Harrows as [Hj Harrows].
  simpl. apply IH; [done|].
  pose proof (Forall2_length _ _ _ Hinv) as Hlen. rewrite Hlen.
  destruct (animateArrow_cases p cur j)
    as [->|(a & sx & sy & ex & ey & rest & i & el & Ha & Hp & _ & Hel & Hty & Hx & Hy & ->)];
    [done|].
  (* the arrow read from the current store is the arrow of the input *)
  unfold isArrowAt in Hj.
  destruct (l0 !! j) as [a0|] eqn:Ha0; [|done].
  destruct (Forall2_lookup_l _ _ _ _ _ Hinv Ha0) as (a' & Ha' & Hrel).
  assert (a' = a) as -> by congruence.
  assert (a = a0) as ->.
  { destruct Hrel as [->|[Hpl _]]; [done|].
    by apply isArrowType_not_player in Hj. }
  destruct (Forall2_lookup_r _ _ _ _ _ Hinv Hel) as (el0 & Hel0 & Hrel0).
  eapply Forall2_insert_right; [done..|].
  apply (passedOrRepositioned_step p l0 el0 el a0 sx sy ex ey rest);
    [done|by eapply list_elem_of_lookup_2|done..].
Qed.

Lemma animateValues_passedOrRepositioned p l :
  Forall2 (passedOrRepositioned p l) l (animateValues p l).
Proof.
  apply foldl_animateArrow_invariant.
  - apply Forall_forall. intros r Hr. by apply list_elem_of_filter in Hr as [? _].
  - apply Forall_Forall2_diag, Forall_forall. intros el _. by left.
Qed.


(** C8: [getAnimatedElements] leaves every object of the store it was
    called on as it was (it works on clones), and each element of its result
    is the element of the input at the same place, unchanged, unless that
    element is a player within 20 units of an arrow's start that an arrow
    has repositioned; in the hook and in the component. *)
Theorem getAnimatedElements_frame
    (progress : R) (σ : Store) (els : list Ref) (st : LacrosseField.State) :
  let res := CanvasState.getAnimatedElements progress σ els in
  let resF := LacrosseField.getAnimatedElements st σ els in
  ((∀ r el, σ !! r = Some el → res.1 !! r = Some el) ∧
   Forall2 (passedOrRepositioned progress (deref σ els))
           (deref σ els) (deref res.1 res.2)) ∧
  ((∀ r el, σ !! r = Some el → resF.1 !! r = Some el) ∧
   Forall2 (passedOrRepositioned (LacrosseField.animationProgress st) (deref σ els))
           (deref σ els) (deref resF.1 resF.2)).
Proof.
  intros res resF.
  assert (Hhook : ∀ p,
    (∀ r el, σ !! r = Some el →
       (CanvasState.getAnimatedElements p σ els).1 !! r = Some el) ∧
    Forall2 (passedOrRepositioned p (deref σ els)) (deref σ els)
      (deref (CanvasState.getAnimatedElements p σ els).1
             (CanvasState.getAnimatedElements p σ els).2)).
  { intros p. split.
    - intros r el Hr. rewrite getAnimatedElements_values; simpl.
      rewrite lookup_app_l; [done|]. by eapply lookup_lt_Some.
    - rewrite deref_getAnimatedElements. apply animateValues_passedOrRepositioned. }
  split; [apply Hhook|].
  unfold resF, LacrosseField.getAnimatedElements.
  destruct (LacrosseField.isAnimating st); simpl.
  - apply (Hhook (LacrosseField.animationProgress st)).
  - split; [done|]. apply Forall_Forall2_diag, Forall_forall. intros el _. by left.
Qed.








End Animation.

(** ** The animation as rounds of first matches *)

Section AnimationRounds.
Import PrimFloat.















End AnimationRounds.

(** ** The field editor *)

Section Editor.
Import LacrosseField.
Local Open Scope R_scope.

Lemma filter_notPreview_update (changes : ElementChanges) (l : list CanvasElement) :
  ch_id changes = Some "tempArrow" →
  filter notPreview
    ((λ el, if decide (el_id el = "tempArrow") then spread el changes else el) <$> l)
  = filter notPreview l.
Proof.
  intros Hid. induction l as [|el l IH]; [done|]. csimpl.
  rewrite !filter_cons. unfold notPreview at 1 3.
  destruct (decide (el_id el = "tempArrow")) as [Heq|Hne].
  - rewrite !decide_False; [done|by intros ?|].
    unfold spread; simpl. rewrite Hid; simpl. by intros ?.
  - by rewrite !decide_True, IH.
Qed.


Lemma arrow_tool t :
  isArrowType (toolId t) → t = moveArrow ∨ t = passArrow ∨ t = shootArrow.
Proof.
  unfold isArrowType, arrowTypes. rewrite !elem_of_cons, elem_of_nil.
  destruct t; simpl; intros [?|[?|[?|[]]]]; try discriminate; auto.
Qed.

(** A pointer move of a draw gesture keeps the gesture going and touches
    nothing but the preview. *)
Lemma handleMouseMove_drawing pos sp st :
  dragging st = None → isDrawing st = true → startPoint st = Some sp →
  let st' := handleMouseMove pos st in
  dragging st' = None ∧ isDrawing st' = true ∧ startPoint st' = Some sp ∧
  selectedTool st' = selectedTool st ∧
  filter notPreview (elements st') = filter notPreview (elements st) ∧
  (inSync st → inSync st').
Proof.
  intros Hd Hi Hs. unfold handleMouseMove. rewrite Hd, Hi, Hs.
  destruct (arrayFind _ _); simpl; (repeat split; try done).
  - by apply filter_notPreview_update.
  - unfold inSync; simpl. by intros ->.
  - rewrite filter_app, filter_cons, decide_False by (by intros Hne; apply Hne).
    by rewrite filter_nil, (right_id_L [] (++)).
  - unfold inSync; simpl. by intros ->.
Qed.









(** The arrow hit test of [isPointInElement] is not [isPointNearLine] with
    threshold 10: it answers [false] for every point whose projection falls
    outside the segment, such as the point three units before the start of
    the arrow from (0,0) to (10,0). *)
Lemma isPointInElement_no_clamp :
  let arrow := mkElement "a" "moveArrow" 0 0 (Some [0; 0; 10; 0]) None None None in
  isPointInElement (-3) 0 arrow = false ∧
  CanvasUtils.isPointNearLine (-3) 0 0 0 10 0 (Some 10) = true.
Proof.
  intros arrow.
  assert (Hlen : CanvasUtils.distance 0 0 10 0 ≠ 0).
  { rewrite distance_zero. intros [? _]. lra. }
  assert (Ht : CanvasUtils.projection (-3) 0 0 0 10 0 < 0).
  { unfold CanvasUtils.projection. rewrite distance_sqr.
    replace ((10 - 0) ^ 2 + (0 - 0) ^ 2) with 100 by ring. lra. }
  split.
  - unfold isPointInElement, arrow; simpl.
    fold (CanvasUtils.distance 0 0 10 0).
    fold (CanvasUtils.projection (-3) 0 0 0 10 0).
    case_decide; [done|]. by rewrite decide_True.
  - rewrite (isPointNearLine_proper _ _ _ _ _ _ _ Hlen), decide_True by done.
    apply bool_decide_eq_true, distance_le_of_sq; lra.
Qed.

(** Pointer-up of a draw gesture pushes the collection it found, preview
    included, onto [past]. *)
Lemma handleMouseUp_past pos generated sp st :
  isDrawing st = true → startPoint st = Some sp →
  present (history st) ∈ past (history (handleMouseUp pos generated st)).
Proof.
  intros Hi Hs. unfold handleMouseUp. rewrite Hi, Hs.
  case_decide; simpl; rewrite !elem_of_app, !list_elem_of_singleton; auto.
Qed.

(** A pointer move of a draw gesture leaves the preview in
    [history.present]. *)
Lemma handleMouseMove_preview pos sp st :
  inSync st → dragging st = None → isDrawing st = true → startPoint st = Some sp →
  ∃ el, el ∈ present (history (handleMouseMove pos st)) ∧ isPreview el.
Proof.
  intros Hsync Hd Hi Hs. unfold handleMouseMove. rewrite Hd, Hi, Hs.
  destruct (arrayFind _ _) as [found|] eqn:Hfind; simpl.
  - unfold arrayFind in Hfind.
    destruct (list_find _ _) as [[i x]|] eqn:Hf; [|done].
    apply list_find_Some in Hf as (Hx & Hid & _).
    rewrite Hsync in Hx.
    exists (spread x (arrowDataChanges (selectedTool st) sp pos)). split; [|done].
    apply list_elem_of_fmap. exists x. split.
    + by rewrite decide_True.
    + by eapply list_elem_of_lookup_2.
  - exists (arrowData (selectedTool st) sp pos). split; [|done].
    apply elem_of_app. right. apply list_elem_of_here.
Qed.

(** From every state of the component, a draw gesture with at least one
    pointer move leaves a snapshot with the preview in [past]. *)
Lemma draw_gesture_pushes_preview st0 start pos pos' generated0 generated prompted :
  isArrowType (toolId (selectedTool st0)) → dragging st0 = None → inSync st0 →
  let st3 := handleMouseUp pos' generated
               (handleMouseMove pos
                  (handleMouseDown 0 start generated0 prompted st0)) in
  ∃ snap el, snap ∈ past (history st3) ∧ el ∈ snap ∧ isPreview el.
Proof.
  intros Htool Hd Hsync st3.
  set (st1 := handleMouseDown 0 start generated0 prompted st0) in *.
  assert (Hst1 : st1 = setStartPoint (Some start) (setIsDrawing true st0)).
  { unfold st1, handleMouseDown. rewrite decide_False by (by intros ?).
    by destruct (arrow_tool _ Htool) as [->|[->| ->]]. }
  destruct (handleMouseMove_drawing pos start st1) as (_ & Hi2 & Hs2 & _);
    [by rewrite Hst1..|].
  destruct (handleMouseMove_preview pos start st1) as (el & Hel & Hpre);
    [by rewrite Hst1..|].
  exists (present (history (handleMouseMove pos st1))), el.
  split; [|done]. by apply (handleMouseUp_past _ _ start).
Qed.

(** C6 fails on the component: after choosing the move-arrow tool on the
    empty editor, pressing at (100,100), moving to (150,150) and releasing
    there, the history holds a snapshot that contains the preview element
    [tempArrow], and two undos put the preview back on the field. *)
Theorem preview_enters_history :
  let st := run [ChooseTool moveArrow;
                 MouseDown 0 (100, 100) "g0" None;
                 MouseMove (150, 150);
                 MouseUp (150, 150) "g1"] initialState in
  (∃ snap el, snap ∈ snapshots (history st) ∧ el ∈ snap ∧ isPreview el) ∧
  (∃ el, el ∈ elements (undo (undo st)) ∧ isPreview el).
Proof.
  intros st.
  set (st3 := run [ChooseTool moveArrow; MouseDown 0 (100, 100) "g0" None;
                   MouseMove (150, 150)] initialState).
  set (preview := arrowData moveArrow (100, 100) (150, 150)).
  assert (H3 : history st3 = mkHistory [[]] [preview] []) by reflexivity.
  assert (Hst : st = handleMouseUp (150, 150) "g1" st3) by reflexivity.
  assert (Hlong : Rabs (100 - 150) > 5 ∨ Rabs (100 - 150) > 5).
  { left. abs_lra. }
  split.
  - exists [preview], preview. split; [|split; [by apply list_elem_of_here|done]].
    unfold snapshots. apply elem_of_app. left.
    rewrite Hst. change [preview] with (present (mkHistory [[]] [preview] [])).
    rewrite <- H3. by apply (handleMouseUp_past _ _ (100, 100)).
  - exists preview. split; [|done].
    assert (Hh : history st
                 = mkHistory [[]; [preview]; []]
                     [mkElement "g1" "moveArrow" 100 100
                        (Some [100; 100; 150; 150]) None None None] []).
    { rewrite Hst. unfold handleMouseUp.
      change (isDrawing st3) with true. change (startPoint st3) with (Some (100, 100)).
      cbv iota beta. rewrite decide_True by exact Hlong. reflexivity. }
    assert (He : elements (undo (undo st)) = [preview]).
    { unfold undo at 2. rewrite Hh. simpl. unfold undo. simpl. reflexivity. }
    rewrite He. by apply list_elem_of_here.
Qed.

End Editor.

(** ** The server *)

Section Storage.
Import Server.

Lemma elem_of_values {A} (m : gmap Z A) (x : A) :
  x ∈ values m ↔ ∃ k, m !! k = Some x.
Proof.
  unfold values. rewrite list_elem_of_fmap. split.
  - intros ([k y] & -> & H%elem_of_map_to_list). by exists k.
  - intros (k & H). exists (k, x). by rewrite elem_of_map_to_list.
Qed.

Lemma filter_none {A} (P : A → Prop) `{!∀ x, Decision (P x)} (l : list A) :
  (∀ x, x ∈ l → ¬ P x) → filter P l = [].
Proof.
  intros Hl. destruct (filter P l) as [|x k] eqn:Hf; [done|].
  assert (Hx : x ∈ filter P l) by (rewrite Hf; apply list_elem_of_here).
  apply list_elem_of_filter in Hx as [HP Hx]. by destruct (Hl x Hx).
Qed.

(** The loop [for (const play of playsInFolder) this.plays.delete(play.id)]. *)
Lemma lookup_delete_plays (l : list Play) : ∀ (m : gmap Z Play) k,
  foldl (λ m play, delete (play_id play) m) m l !! k
  = if decide (k ∈ play_id <$> l) then None else m !! k.
Proof.
  induction l as [|play l IH]; intros m k; csimpl.
  - done.
  - rewrite IH. destruct (decide (k = play_id play)) as [->|Hne].
    + rewrite lookup_delete_eq.
      rewrite (decide_True (P := play_id play ∈ play_id play :: _))
        by apply list_elem_of_here.
      by case_decide.
    + rewrite lookup_delete_ne by done.
      apply decide_ext. rewrite elem_of_cons. split; [by right|by intros [?|?]].
Qed.

Lemma plays_deleteFolder id s k :
  Mem.keyedById s →
  plays (Mem.deleteFolder id s).2 !! k
  = match plays s !! k with
    | Some play => if decide (play_folderId play = id) then None else Some play
    | None => None
    end.
Proof.
  intros Hkey. unfold Mem.deleteFolder; simpl. rewrite lookup_delete_plays.
  destruct (plays s !! k) as [play|] eqn:Hk.
  - pose proof (Hkey _ _ Hk) as Hid.
    destruct (decide (play_folderId play = id)) as [Hf|Hf].
    + rewrite decide_True; [done|]. apply list_elem_of_fmap. exists play.
      split; [done|]. apply list_elem_of_filter. split; [done|].
      apply elem_of_values. by exists k.
    + rewrite decide_False; [done|].
      intros (play' & Hid' & [Hf' (k' & Hk')%elem_of_values]%list_elem_of_filter)%list_elem_of_fmap.
      pose proof (Hkey _ _ Hk'). assert (k' = k) as -> by congruence. congruence.
  - by case_decide.
Qed.

Lemma keyedById_call s c :
  Mem.keepsId c → Mem.keyedById s → Mem.keyedById (Mem.call s c).
Proof.
  intros Hc Hkey k play. destruct c as [u|now f|id|now p|now id u|id]; cbn [Mem.call].
  - apply Hkey.
  - apply Hkey.
  - rewrite (plays_deleteFolder id s k Hkey).
    destruct (plays s !! k) as [play'|] eqn:Hk; [|done].
    case_decide; [done|]. intros [= <-]. by apply Hkey.
  - unfold Mem.createPlay. destruct (parse _ _); simpl; [|apply Hkey].
    intros [[<- <-]|[_ H]]%lookup_insert_Some; [done|by apply Hkey].
  - unfold Mem.updatePlay. destruct (plays s !! id) as [old|] eqn:Hold; [|apply Hkey].
    destruct (match pu_canvas u with Some _ => _ | None => _ end); simpl; [|apply Hkey].
    intros [[<- <-]|[_ H]]%lookup_insert_Some; [|by apply Hkey].
    simpl. destruct Hc as [->| ->]; simpl; [by apply Hkey|done].
  - simpl. intros [_ H]%lookup_delete_Some. by apply Hkey.
Qed.

Lemma keyedById_constructor now : Mem.keyedById (Mem.constructor now).
Proof. intros k play H. done. Qed.


(** C3 fails on the wired storage: the route validates the body with
    [insertPlaySchema], for which [canvas] is any JSON, and
    [DatabaseStorage.createPlay] stores the canvas without looking at it, so
    a canvas whose element has no [type] is answered with 201 and stored.
    [MemStorage.createPlay] validates the canvas and the same request is
    answered with 400 and a validation message naming [canvas[0].type]; a
    valid body gets 201 on both. *)
Theorem postPlays_missing_type (now : Z) (db : Database) (mem : MemStorage) :
  let invalidCanvas :=
    JArr [ JObj [ ("id", JStr "e1"); ("x", JNum 0); ("y", JNum 0) ] ] in
  (postPlaysRoute now bodyMissingType db).1
  = mkResponse 201
      (PlayBody (mkPlay (plays_id_seq db) "Fast break" 1 1 invalidCanvas now now)) ∧
  (postPlays now bodyMissingType mem).1
  = mkResponse 400
      (MessageBody (ValidationMessage [mkIssue [Index 0; Key "type"] Required])) ∧
  status (postPlaysRoute now bodyValid db).1 = 201%Z ∧
  status (postPlays now bodyValid mem).1 = 201%Z.
Proof. repeat split. Qed.

End Storage.

(** * Part III: further properties of the code *)

(** ** Geometry helpers *)

Section MoreGeometry.
Import CanvasUtils.
Local Open Scope R_scope.



(** [isPointNearLine] decides whether some point of the segment is within
    the threshold. *)
Lemma isPointNearLine_within px py x1 y1 x2 y2 th :
  isPointNearLine px py x1 y1 x2 y2 (Some th) = true
  ↔ withinOfSegment px py x1 y1 x2 y2 th.
Proof.
  destruct (decide (x1 = x2 ∧ y1 = y2)) as [[<- <-]|Hne].
  - rewrite isPointNearLine_degenerate, bool_decide_eq_true. split.
    + intros Hle. exists 0. split; [lra|].
      by replace (x1 + 0 * (x1 - x1)) with x1 by ring;
         replace (y1 + 0 * (y1 - y1)) with y1 by ring.
    + intros (s & _ & Hle).
      by replace (x1 + s * (x1 - x1)) with x1 in Hle by ring;
         replace (y1 + s * (y1 - y1)) with y1 in Hle by ring.
  - assert (Hd : distance x1 y1 x2 y2 ≠ 0) by by rewrite distance_zero.
    rewrite (isPointNearLine_proper _ _ _ _ _ _ _ Hd).
    set (t := projection px py x1 y1 x2 y2).
    destruct (decide (t < 0)) as [Ht0|Ht0]; [|destruct (decide (t > 1)) as [Ht1|Ht1]];
      rewrite bool_decide_eq_true; split.
    + intros Hle. exists 0. split; [lra|].
      by replace (x1 + 0 * (x2 - x1)) with x1 by ring;
         replace (y1 + 0 * (y2 - y1)) with y1 by ring.
    + intros (s & [Hs0 Hs1] & Hle).
      eapply Rle_trans; [|exact Hle]. by apply closest_before.
    + intros Hle. exists 1. split; [lra|].
      by replace (x1 + 1 * (x2 - x1)) with x2 by ring;
         replace (y1 + 1 * (y2 - y1)) with y2 by ring.
    + intros (s & [Hs0 Hs1] & Hle).
      eapply Rle_trans; [|exact Hle]. by apply closest_after.
    + intros Hle. exists t. split; [lra|done].
    + intros (s & _ & Hle).
      eapply Rle_trans; [|exact Hle]. by apply closest_inside.
Qed.

(** A larger threshold never loses a hit. *)
Theorem isPointNearLine_threshold_mono (px py x1 y1 x2 y2 th th' : R) :
  th <= th' →
  isPointNearLine px py x1 y1 x2 y2 (Some th) = true →
  isPointNearLine px py x1 y1 x2 y2 (Some th') = true.
Proof.
  intros Hle. rewrite !isPointNearLine_within.
  intros (s & Hs & H). exists s. split; [done|lra].
Qed.

Lemma isPointNearLine_threshold_mono_witness :
  (0 <= 5 ∧ isPointNearLine 0 0 0 0 10 4 (Some 0) = true) ∧
  isPointNearLine 0 0 0 0 10 4 (Some 5) = true.
Proof.
  assert (H0 : isPointNearLine 0 0 0 0 10 4 (Some 0) = true).
  { apply isPointNearLine_within. exists 0. split; [lra|].
    apply distance_le_of_sq; lra. }
  split; [split; [lra|exact H0]|].
  apply (isPointNearLine_threshold_mono 0 0 0 0 10 4 0 5); [lra|exact H0].
Defined.

End MoreGeometry.

(** ** Geometry helpers as executed *)

Section MoreGeometryDoubles.
Import PrimFloat.
Local Open Scope float_scope.

Lemma distance_sym_doubles (x1 y1 x2 y2 : float) :
  Binary64.distance x1 y1 x2 y2 = Binary64.distance x2 y2 x1 y1.
Proof.
  unfold Binary64.distance. by rewrite (sq_sub_swap x2 x1), (sq_sub_swap y2 y1).
Qed.

Lemma distance_not_negative_doubles (x1 y1 x2 y2 : float) :
  (Binary64.distance x1 y1 x2 y2 <? 0) = false.
Proof.
  rewrite FloatAxioms.ltb_spec.
  change (FloatOps.Prim2SF 0) with (SpecFloat.S754_zero false).
  apply SFltb_notNegative. unfold Binary64.distance, Binary64.pow2.
  rewrite FloatAxioms.sqrt_spec, FloatAxioms.add_spec, !FloatAxioms.mul_spec.
  apply SFsqrt_notNegative, SFadd_notNegative; apply SFmul_self_notNegative.
Qed.

(** As executed, [distance] gives the same number in both directions, is
    never negative (it is [NaN] or at least 0), and is 0 from a finite point
    to itself.  The triangle inequality does not carry over from exact
    arithmetic: the distance from (0,0) to (4,4) exceeds the sum of the
    distances from (0,0) to (1,1) and from (1,1) to (4,4). *)
Theorem distance_symmetric_not_negative (x1 y1 x2 y2 : float) :
  Binary64.distance x1 y1 x2 y2 = Binary64.distance x2 y2 x1 y1 ∧
  (Binary64.distance x1 y1 x2 y2 <? 0) = false ∧
  (is_finite x1 = true → is_finite y1 = true → Binary64.distance x1 y1 x1 y1 = 0) ∧
  (Binary64.distance 0 0 1 1 + Binary64.distance 1 1 4 4 <? Binary64.distance 0 0 4 4) = true.
Proof.
  split; [apply distance_sym_doubles|]. split; [apply distance_not_negative_doubles|].
  split; [apply distance_diag_doubles|reflexivity].
Qed.

(** As executed, a larger threshold never loses a hit: the branch taken and
    the distance compared do not depend on the threshold. *)
Theorem isPointNearLine_threshold_mono_doubles (px py x1 y1 x2 y2 th th' : float) :
  (th <=? th') = true →
  Binary64.isPointNearLine px py x1 y1 x2 y2 (Some th) = true →
  Binary64.isPointNearLine px py x1 y1 x2 y2 (Some th') = true.
Proof.
  intros Hle. unfold Binary64.isPointNearLine. cbn [default].
  repeat case_match; intros Hnear; by apply (leb_trans _ th).
Qed.

Lemma isPointNearLine_threshold_mono_doubles_witness :
  ((0 <=? 5) = true ∧ Binary64.isPointNearLine 0 0 0 0 10 4 (Some 0) = true) ∧
  Binary64.isPointNearLine 0 0 0 0 10 4 (Some 5) = true.
Proof.
  split; [split; reflexivity|].
  apply (isPointNearLine_threshold_mono_doubles 0 0 0 0 10 4 0 5); reflexivity.
Defined.

(** As executed, the order of the two ends matters: the point (23,16) lies
    at distance 1 from the segment between (2,33) and (38,6), and the test
    with threshold 1 accepts it from (2,33) to (38,6) and refuses it from
    (38,6) to (2,33). *)
Lemma isPointNearLine_endpoints_order :
  Binary64.isPointNearLine 23 16 2 33 38 6 (Some 1) = true ∧
  Binary64.isPointNearLine 23 16 38 6 2 33 (Some 1) = false.
Proof. split; reflexivity. Qed.

(** As executed, the arrow hit test of the field editor hits an arrow whose
    two ends are the same finite point nowhere, and whether the very tip of
    an arrow is hit depends on how the projection is rounded: the arrow from
    (100,100) to (200,150) is hit at its tip; the arrow from (100,100) to
    (110,180) is not, the computed projection of the tip being above 1,
    although [isPointNearLine] with threshold 10 accepts the tip. *)
Theorem isPointInArrow_ends :
  (∀ x y x1 y1 : float,
     is_finite x1 = true → is_finite y1 = true →
     Binary64.isPointInArrow x y x1 y1 x1 y1 = false) ∧
  Binary64.isPointInArrow 200 150 100 100 200 150 = true ∧
  (1 <? Binary64.projection 110 180 100 100 110 180) = true ∧
  Binary64.isPointInArrow 110 180 100 100 110 180 = false ∧
  Binary64.isPointNearLine 110 180 100 100 110 180 (Some 10) = true.
Proof.
  split; [|repeat split].
  intros x y x1 y1 Hx Hy. unfold Binary64.isPointInArrow.
  by rewrite !sub_diag.
Qed.

End MoreGeometryDoubles.

(** ** Hit testing in the field editor *)

Section HitTest.
Import LacrosseField.
Local Open Scope R_scope.
Local Arguments pow : simpl never.




End HitTest.

(** ** The history as a timeline *)

Section MoreHistory.
Import CanvasState.

Lemma snapshots_undoAction h :
  LacrosseField.snapshots (undoAction h) = LacrosseField.snapshots h.
Proof.
  destruct h as [ps c f]. destruct (decide (ps = [])) as [->|Hne]; [done|].
  destruct (snoc_of_nonempty ps Hne) as (ps' & p & ->).
  rewrite undoAction_snoc. unfold LacrosseField.snapshots; simpl.
  by rewrite <- !(assoc_L (++)).
Qed.

Lemma snapshots_redoAction h :
  LacrosseField.snapshots (redoAction h) = LacrosseField.snapshots h.
Proof.
  destruct h as [ps c [|n f]]; [done|].
  rewrite redoAction_cons. unfold LacrosseField.snapshots; simpl.
  by rewrite <- !(assoc_L (++)).
Qed.

(** Undo and redo only move the cursor: the sequence of snapshots
    [past ++ [present] ++ future] stays the same, in the hook and in the
    component, and so does [past.length + 1 + future.length]. *)
Theorem undo_redo_keep_timeline (h : HistoryState) (st : LacrosseField.State) :
  LacrosseField.snapshots (undoAction h) = LacrosseField.snapshots h ∧
  LacrosseField.snapshots (redoAction h) = LacrosseField.snapshots h ∧
  LacrosseField.snapshots (LacrosseField.history (LacrosseField.undo st))
  = LacrosseField.snapshots (LacrosseField.history st) ∧
  LacrosseField.snapshots (LacrosseField.history (LacrosseField.redo st))
  = LacrosseField.snapshots (LacrosseField.history st) ∧
  length (past (undoAction h)) + 1 + length (future (undoAction h))
  = length (past h) + 1 + length (future h) ∧
  length (past (redoAction h)) + 1 + length (future (redoAction h))
  = length (past h) + 1 + length (future h).
Proof.
  assert (Hlen : ∀ h', length (LacrosseField.snapshots h')
                       = length (past h') + 1 + length (future h')).
  { intros h'. unfold LacrosseField.snapshots. rewrite !length_app. simpl. lia. }
  split; [apply snapshots_undoAction|]. split; [apply snapshots_redoAction|].
  split; [by rewrite history_undo, snapshots_undoAction|].
  split; [by rewrite history_redo, snapshots_redoAction|].
  split; rewrite <- !Hlen.
  - by rewrite snapshots_undoAction.
  - by rewrite snapshots_redoAction.
Qed.

(** An undo right after a push gives back the [past] and [present] held
    before the push and keeps the pushed collection as the one entry of
    [future]; in the component [elements] becomes that earlier [present]. *)
Theorem undo_after_push (op : Push) (h : HistoryState)
    (fop : LacrosseField.Push) (st : LacrosseField.State) :
  undoAction (push op h) = mkHistory (past h) (present h) [present (push op h)] ∧
  LacrosseField.history (LacrosseField.undo (LacrosseField.push fop st))
  = mkHistory (past (LacrosseField.history st)) (present (LacrosseField.history st))
      [present (LacrosseField.history (LacrosseField.push fop st))] ∧
  LacrosseField.elements (LacrosseField.undo (LacrosseField.push fop st))
  = present (LacrosseField.history st).
Proof.
  split; [|split].
  - destruct op; apply undoAction_snoc.
  - rewrite history_undo. destruct fop; apply undoAction_snoc.
  - assert (Hs : ∀ st', past (LacrosseField.history st') ≠ [] →
                 LacrosseField.elements (LacrosseField.undo st')
                 = present (undoAction (LacrosseField.history st'))).
    { intros st' Hne. unfold LacrosseField.undo, undoAction.
      rewrite !decide_False by (by destruct (past _)). by destruct (pop _). }
    rewrite Hs by (destruct fop; simpl; by destruct (past _)).
    destruct fop; simpl; by rewrite undoAction_snoc.
Qed.

Lemma undoAction_redoAction h : future h ≠ [] → undoAction (redoAction h) = h.
Proof.
  destruct h as [ps c [|n f]]; [done|]. intros _.
  by rewrite redoAction_cons, undoAction_snoc.
Qed.

Lemma component_redo_cons st ps c n f :
  LacrosseField.history st = mkHistory ps c (n :: f) →
  LacrosseField.redo st
  = LacrosseField.setHistory (λ _, mkHistory (ps ++ [c]) n f)
      (LacrosseField.setElements (λ _, n) st).
Proof. intros H. unfold LacrosseField.redo. by rewrite H. Qed.

Lemma component_undo_snoc st ps p c f :
  LacrosseField.history st = mkHistory (ps ++ [p]) c f →
  LacrosseField.undo st
  = LacrosseField.setHistory (λ _, mkHistory ps p (c :: f))
      (LacrosseField.setElements (λ _, p) st).
Proof.
  intros H. unfold LacrosseField.undo. rewrite H; cbn [past present future].
  rewrite pop_snoc, decide_False; [done|]. rewrite length_app; simpl; lia.
Qed.

(** Undo takes back a redo: on a non-empty [future], redo followed by undo
    gives back the triple, and in the component the whole state when
    [elements] mirrors [history.present]. *)
Theorem undo_after_redo (h : HistoryState) (st : LacrosseField.State) :
  (future h ≠ [] → undoAction (redoAction h) = h) ∧
  (future (LacrosseField.history st) ≠ [] → LacrosseField.inSync st →
   LacrosseField.undo (LacrosseField.redo st) = st).
Proof.
  split; [apply undoAction_redoAction|].
  destruct st as [els [ps c [|n f]] tool team cp dr sp dg an pr nm sel]; [done|].
  unfold LacrosseField.inSync; simpl. intros _ ->.
  erewrite component_redo_cons by reflexivity.
  by erewrite component_undo_snoc by reflexivity.
Qed.

Lemma undo_after_redo_witness :
  let h := mkHistory [] [] [[nearPlayer]] in
  let st := LacrosseField.undo
              (LacrosseField.addElement nearPlayer LacrosseField.initialState) in
  (future h ≠ [] ∧ undoAction (redoAction h) = h) ∧
  (future (LacrosseField.history st) ≠ [] ∧ LacrosseField.inSync st ∧
   LacrosseField.undo (LacrosseField.redo st) = st).
Proof.
  intros h st.
  pose proof (undo_after_redo h st) as [H1 H2].
  split; (split; [done|]).
  - by apply H1.
  - split; [done|]. by apply H2.
Defined.

(** Adding an element and then removing its id gives back the collection,
    when no element of the collection had that id; the two steps leave two
    more entries in [past]. *)
Theorem remove_after_add (fresh : string) (element : CanvasElement) (h : HistoryState) :
  let id := if decide (el_id element = "") then fresh else el_id element in
  Forall (λ el, el_id el ≠ id) (present h) →
  present (removeElement id (addElement fresh element h)) = present h ∧
  length (past (removeElement id (addElement fresh element h))) = 2 + length (past h).
Proof.
  intros id Hfresh. split.
  - unfold removeElement, addElement; simpl. rewrite filter_app.
    assert (Hkeep : filter (λ el, el_id el ≠ id) (present h) = present h).
    { clear -Hfresh. induction Hfresh as [|el l Hel _ IH]; [done|].
      by rewrite filter_cons, decide_True, IH. }
    rewrite Hkeep, filter_cons, decide_False, filter_nil.
    + by rewrite (right_id_L [] (++)).
    + intros Hne. apply Hne. unfold id. by case_decide.
  - unfold removeElement, addElement; simpl. rewrite !length_app. simpl. lia.
Qed.

Lemma remove_after_add_witness :
  let h := mkHistory [] [anArrow] [] in
  Forall (λ el, el_id el ≠ "p1") (present h) ∧
  present (removeElement "p1" (addElement "n1" nearPlayer h)) = present h.
Proof.
  intros h.
  assert (Hf : Forall (λ el, el_id el ≠ "p1") (present h)).
  { repeat constructor. by intros ?. }
  split; [exact Hf|]. by apply (remove_after_add "n1" nearPlayer h).
Defined.

(** Choosing the clear tool in the sidebar always ends with the select
    tool, in the sidebar and in the hook.  When the user confirms, the
    collection is emptied with one history push, and one undo brings it
    back; when the user declines, the history is untouched.  Every other
    tool is just selected. *)
Theorem sidebar_clear (confirmed : bool) (toolId : Sidebar.ToolId) (st : Sidebar.State) :
  let st' := Sidebar.handleToolClick Sidebar.clear confirmed st in
  Sidebar.selectedTool st' = Sidebar.select ∧
  Sidebar.currentTool st' = Sidebar.select ∧
  (confirmed = false → Sidebar.history st' = Sidebar.history st) ∧
  (confirmed = true →
     present (Sidebar.history st') = [] ∧
     past (Sidebar.history st') = past (Sidebar.history st) ++ [present (Sidebar.history st)] ∧
     present (Sidebar.history (Sidebar.handleUndo st')) = present (Sidebar.history st) ∧
     past (Sidebar.history (Sidebar.handleUndo st')) = past (Sidebar.history st)) ∧
  (toolId ≠ Sidebar.clear →
     Sidebar.handleToolClick toolId confirmed st
     = Sidebar.mkState toolId toolId (Sidebar.history st)).
Proof.
  intros st'. split; [done|]. split; [done|]. split; [|split].
  - by intros ->.
  - intros ->. unfold st'; simpl. unfold clearElements. by rewrite undoAction_snoc.
  - by destruct toolId.
Qed.

End MoreHistory.

(** ** The field editor as a state machine *)

Section MoreEditor.
Import LacrosseField.
Local Open Scope R_scope.
Local Arguments pow : simpl never.

Lemma inSync_handleMouseDown button pos generated prompted st :
  inSync st → inSync (handleMouseDown button pos generated prompted st).
Proof.
  unfold handleMouseDown, inSync. intros Hs.
  case_decide; [done|].
  destruct (selectedTool st); repeat case_match; simpl; by rewrite ?Hs.
Qed.

Lemma inSync_handleMouseMove pos st : inSync st → inSync (handleMouseMove pos st).
Proof.
  unfold handleMouseMove, inSync. intros Hs.
  repeat case_match; simpl; by rewrite ?Hs.
Qed.

Lemma inSync_handleMouseUp pos generated st :
  inSync st → inSync (handleMouseUp pos generated st).
Proof.
  unfold handleMouseUp, inSync. intros Hs.
  repeat case_match; simpl; by rewrite ?Hs.
Qed.

Lemma inSync_step st ev : inSync st → inSync (step st ev).
Proof.
  destruct ev; simpl;
    auto using inSync_handleMouseDown, inSync_handleMouseMove, inSync_handleMouseUp,
               inSync_undo, inSync_redo.
Qed.

(** Whatever the user does, [elements] and [history.present] hold the same
    collection: the two pieces of state never drift apart. *)
Theorem elements_mirror_present (evs : list Event) (st : State) :
  inSync st → inSync (run evs st).
Proof.
  revert st. induction evs as [|ev evs IH]; intros st Hs; [done|].
  apply IH, inSync_step, Hs.
Qed.

Lemma elements_mirror_present_witness :
  let evs := [ChooseTool player; MouseDown 0 (10, 20) "g1" None; ClickUndo; ClickRedo] in
  inSync initialState ∧
  elements (run evs initialState) = present (history (run evs initialState)).
Proof.
  intros evs. split; [reflexivity|].
  apply (elements_mirror_present evs initialState). reflexivity.
Defined.










End MoreEditor.

(** ** Animation: the result is a fresh copy *)

Section MoreAnimation.

Lemma length_deref_valid (σ : Store) (els : list Ref) :
  Forall (λ r, r < length σ) els → length (deref σ els) = length els.
Proof.
  unfold deref. induction 1 as [|r els Hr _ IH]; [done|]. simpl.
  destruct (lookup_lt_is_Some_2 σ r Hr) as [el ->]. simpl. f_equal. exact IH.
Qed.

(** The array [getAnimatedElements] returns holds new objects only: none of
    its references is a reference of the store it was called on, no two of
    them are the same, and there is one per element of the input; so the
    caller may write to the result without touching the elements of the
    editor.  With the animation off, the component hands out the live array
    itself. *)
Theorem getAnimatedElements_fresh
    (progress : R) (σ : Store) (els : list Ref) (st : LacrosseField.State) :
  let res := CanvasState.getAnimatedElements progress σ els in
  (∀ r, r ∈ res.2 → length σ ≤ r < length res.1) ∧
  NoDup res.2 ∧
  length res.2 = length (deref σ els) ∧
  (Forall (λ r, r < length σ) els → length res.2 = length els) ∧
  (LacrosseField.isAnimating st = true →
     LacrosseField.getAnimatedElements st σ els
     = CanvasState.getAnimatedElements (LacrosseField.animationProgress st) σ els) ∧
  (LacrosseField.isAnimating st = false →
     LacrosseField.getAnimatedElements st σ els = (σ, els)).
Proof.
  intros res. unfold res. rewrite getAnimatedElements_values; cbn [fst snd].
  split; [|split; [apply NoDup_seq|split; [apply length_seq|split; [|split]]]].
  - intros r [Hr1 Hr2]%elem_of_seq.
    rewrite length_app, length_animateValues. lia.
  - intros Hv. by rewrite length_seq, length_deref_valid.
  - apply getAnimatedElements_component.
  - unfold LacrosseField.getAnimatedElements. by intros ->.
Qed.

End MoreAnimation.

(** ** The page editor *)

Section MorePage.
Import LacrossePage.
Local Open Scope R_scope.

Lemma page_handleUndo_snoc pl ar bl nm tool dr sp sel ps p c f :
  handleUndo (mkState pl ar bl nm tool dr sp sel (mkPageHistory (ps ++ [p]) c f))
  = mkState (pd_players p) (pd_arrows p) (pd_balls p) (pd_name p) tool dr sp sel
      (mkPageHistory ps p (c :: f)).
Proof.
  unfold handleUndo; cbn [history past current future].
  rewrite decide_False by (rewrite length_app; simpl; lia).
  by rewrite pop_snoc.
Qed.

(** Undo in the page editor puts the last snapshot of [past] on the field
    (players, arrows, balls and name) and leaves [history.current] equal to
    the field; a redo right after it gives back the state before the undo.
    Both do nothing when there is nothing to undo or redo. *)
Theorem page_undo_redo (st : State) :
  (past (history st) = [] → handleUndo st = st) ∧
  (future (history st) = [] → handleRedo st = st) ∧
  (synced st →
   ∀ previous, last (past (history st)) = Some previous →
     let st' := handleUndo st in
     mkPlayData (players st') (arrows st') (balls st') (playName st') = previous ∧
     synced st' ∧
     handleRedo st' = st).
Proof.
  split; [|split].
  - intros H. unfold handleUndo. by rewrite H.
  - intros H. unfold handleRedo. by rewrite H.
  - destruct st as [pl ar bl nm tool dr sp sel [ps c f]].
    unfold synced; simpl. intros -> previous Hlast.
    destruct (decide (ps = [])) as [->|Hne]; [done|].
    destruct (snoc_of_nonempty ps Hne) as (ps' & p & ->).
    rewrite last_snoc in Hlast. injection Hlast as ->.
    rewrite page_handleUndo_snoc. simpl.
    split; [by destruct previous|]. split; [by destruct previous|done].
Qed.

Lemma page_undo_redo_witness :
  let before := mkPlayData [] [] [] "Untitled Play" in
  let st := mkState [mkPlayer "p1" 10 20 "A" blue] [] [] "Untitled Play" select false None
              None (mkPageHistory [before]
                      (mkPlayData [mkPlayer "p1" 10 20 "A" blue] [] [] "Untitled Play") []) in
  (synced st ∧ last (past (history st)) = Some before) ∧
  players (handleUndo st) = [] ∧ handleRedo (handleUndo st) = st.
Proof.
  intros before st.
  destruct (page_undo_redo st) as (_ & _ & H).
  destruct (H eq_refl before eq_refl) as (H1 & _ & H3).
  split; [done|]. split; [|exact H3].
  exact (f_equal pd_players H1).
Defined.

Lemma page_animateArrow_frame progress arrow (l0 l : list Player) :
  Forall2 (λ p p', player_id p' = player_id p ∧
                   player_position p' = player_position p ∧
                   player_team p' = player_team p) l0 l →
  Forall2 (λ p p', player_id p' = player_id p ∧
                   player_position p' = player_position p ∧
                   player_team p' = player_team p) l0 (animateArrow progress l arrow).
Proof.
  intros Hl. unfold animateArrow.
  destruct (list_find _ _) as [[i found]|] eqn:Hf; [|done].
  apply list_find_Some in Hf as (Hi & _).
  destruct (Forall2_lookup_r _ _ _ _ _ Hl Hi) as (p0 & Hp0 & Hrel).
  by eapply Forall2_insert_right.
Qed.

(** The animation of the page editor returns the arrows and the balls of
    the state as they are and as many players as the state has, each with
    the id, position label and team of the player at the same place: only
    coordinates of players can differ.  With the animation off, or without
    arrows, the players are returned as they are too. *)
Theorem page_animation_frame (isAnimating : bool) (animationProgress : R) (st : State) :
  let res := getAnimatedElements isAnimating animationProgress st in
  res.1.2 = arrows st ∧ res.2 = balls st ∧
  Forall2 (λ p p', player_id p' = player_id p ∧
                   player_position p' = player_position p ∧
                   player_team p' = player_team p) (players st) res.1.1 ∧
  (isAnimating = false → res.1.1 = players st) ∧
  (arrows st = [] → res.1.1 = players st).
Proof.
  intros res. unfold res, getAnimatedElements.
  assert (Hrefl : Forall2 (λ p p', player_id p' = player_id p ∧
                     player_position p' = player_position p ∧
                     player_team p' = player_team p) (players st) (players st)).
  { apply Forall_Forall2_diag, Forall_forall. by intros p _. }
  destruct isAnimating; simpl.
  - split; [done|]. split; [done|]. split; [|split; [done|by intros ->]].
    generalize (arrows st). intros arrows.
    revert Hrefl. generalize (players st) at 2 4. intros l Hl.
    revert l Hl. induction arrows as [|a arrows IH]; intros l Hl; [done|].
    simpl. by apply IH, page_animateArrow_frame.
  - by repeat split.
Qed.

End MorePage.

(** ** The editor page: zoom *)

Section Zoom.
Import Editor.
Local Open Scope Z_scope.

Lemma click_keeps_zoom_range z c :
  50 ≤ z ≤ 150 ∧ (10 | z) → 50 ≤ click z c ≤ 150 ∧ (10 | click z c).
Proof.
  intros [Hz [k ->]].
  destruct c; unfold click, handleZoomIn, handleZoomOut, handleResetZoom.
  - split; [lia|]. destruct (Z.min_spec (k * 10 + 10) 150) as [[_ ->]|[_ ->]].
    + exists (k + 1). lia.
    + by exists 15.
  - split; [lia|]. destruct (Z.max_spec (k * 10 - 10) 50) as [[_ ->]|[_ ->]].
    + by exists 5.
    + exists (k - 1). lia.
  - split; [lia|]. by exists 10.
Qed.

(** Whatever sequence of zoom-in, zoom-out and reset clicks, the zoom level
    stays between 50 and 150 and is a multiple of 10; at the upper bound
    zoom-in changes nothing, at the lower bound zoom-out changes nothing. *)
Theorem zoom_stays_in_range (clicks : list ZoomClick) :
  let zoomLevel := foldl click initialZoom clicks in
  50 ≤ zoomLevel ≤ 150 ∧ (10 | zoomLevel) ∧
  handleZoomIn 150 = 150 ∧ handleZoomOut 50 = 50.
Proof.
  intros zoomLevel.
  assert (H : 50 ≤ zoomLevel ≤ 150 ∧ (10 | zoomLevel)).
  { unfold zoomLevel.
    assert (H0 : 50 ≤ initialZoom ≤ 150 ∧ (10 | initialZoom))
      by (split; [unfold initialZoom; lia|by exists 10]).
    revert H0. generalize initialZoom.
    induction clicks as [|c clicks IH]; intros z Hz; [done|].
    simpl. by apply IH, click_keeps_zoom_range. }
  destruct H as [? ?]. split; [done|]. split; [done|]. split; reflexivity.
Qed.

End Zoom.

(** ** Validation of canvas elements *)

Section MoreValidation.
Import Server.

Lemma zString_nil path v : zString path v = [] ↔ required isString v.
Proof.
  unfold zString, required, isString. split.
  - destruct v as [[]|]; try done. intros _. eauto.
  - by intros (j & -> & s & ->).
Qed.

Lemma zNumber_nil path v : zNumber path v = [] ↔ required isNumber v.
Proof.
  unfold zNumber, required, isNumber. split.
  - destruct v as [[]|]; try done. intros _. eauto.
  - by intros (j & -> & q & ->).
Qed.

Lemma zEnum_nil values path v : zEnum values path v = [] ↔ required (isOneOf values) v.
Proof.
  unfold zEnum, required, isOneOf. split.
  - destruct v as [[]|]; try done. case_decide; [|done]. intros _. eauto.
  - intros (j & -> & s & -> & Hs). by rewrite decide_True.
Qed.

Lemma zOptional_nil (inner : Schema) P path v :
  (inner path v = [] ↔ required P v) →
  (zOptional inner path v = [] ↔ optional P v).
Proof.
  intros H. unfold zOptional, optional. destruct v as [j|].
  - rewrite H. unfold required. split; [by right|]. by intros [?|?].
  - split; [by left|done].
Qed.

Lemma concat_imap_nil {A B} (l : list A) : ∀ (f : nat → A → list B),
  concat (imap f l) = [] ↔ ∀ i x, l !! i = Some x → f i x = [].
Proof.
  induction l as [|a l IH]; intros f; simpl.
  - split; [by intros _ i x ?|done].
  - rewrite app_nil, IH. split.
    + intros [H0 HS] [|i] x Hx; simpl in Hx; [by injection Hx as <-|by apply HS].
    + intros H. split; [by apply (H 0%nat)|]. intros i x Hx. by apply (H (S i)).
Qed.

Lemma zArray_nil (inner : Schema) (P : Json → Prop) path v :
  (∀ path' j, inner path' (Some j) = [] ↔ P j) →
  (zArray inner path v = [] ↔ ∃ items, v = Some (JArr items) ∧ Forall P items).
Proof.
  intros H. unfold zArray. destruct v as [[| | | |items|]|];
    try (split; [done|by intros (? & ? & _)]).
  rewrite concat_imap_nil. split.
  - intros Hall. exists items. split; [done|]. apply Forall_lookup.
    intros i x Hx. by apply (H (path ++ [Index i])), Hall.
  - intros (items' & [= <-] & Hall) i x Hx. apply H.
    by eapply (proj1 (Forall_lookup _ _) Hall).
Qed.

Lemma zNumber_some_nil path j : zNumber path (Some j) = [] ↔ isNumber j.
Proof.
  rewrite zNumber_nil. unfold required. split; [by intros (? & [= <-] & ?)|eauto].
Qed.

Lemma zNumberArray_nil path v :
  zArray zNumber path v = [] ↔ required isNumberArray v.
Proof.
  rewrite (zArray_nil zNumber isNumber) by (intros; apply zNumber_some_nil).
  unfold required, isNumberArray. split.
  - intros (items & -> & H). eauto.
  - intros (j & -> & items & -> & H). eauto.
Qed.

(** The shape [canvasElementSchema] accepts, whatever the path the issues
    would be reported at. *)
Lemma canvasElementSchema_nil path item :
  canvasElementSchema path (Some item) = [] ↔ wellTypedElement item.
Proof.
  unfold canvasElementSchema, zObject, wellTypedElement.
  destruct item as [| | | | |fields]; try (split; [done|by intros (? & ? & _)]).
  simpl. rewrite !app_nil.
  rewrite zString_nil, zEnum_nil, !zNumber_nil.
  rewrite (zOptional_nil _ isNumberArray) by apply zNumberArray_nil.
  rewrite (zOptional_nil _ isString) by apply zString_nil.
  rewrite (zOptional_nil _ (isOneOf ["blue"; "red"])) by apply zEnum_nil.
  rewrite (zOptional_nil _ isString) by apply zString_nil.
  split.
  - intros (? & ? & ? & ? & ? & ? & ? & ? & _). exists fields. by repeat split.
  - intros (fields' & [= <-] & ? & ? & ? & ? & ? & ? & ? & ?). by repeat split.
Qed.

(** [canvasElementSchema] accepts exactly the JSON objects with a string
    [id], a [type] among the six element types, numbers [x] and [y], and,
    where present, an array of numbers [points], a string [position], a
    [team] that is blue or red and a string [text]; other keys are ignored
    and [null] is not accepted for an optional key. *)
Theorem canvasElementSchema_accepts (item : Json) :
  (parse canvasElementSchema item = Returned item ↔ wellTypedElement item) ∧
  (¬ wellTypedElement item →
     ∃ issues, issues ≠ [] ∧ parse canvasElementSchema item = Threw (ZodError issues)) ∧
  (∀ fields key, item = JObj fields → key ∈ ["points"; "position"; "team"; "text"] →
     getKey key fields = Some JNull → ¬ wellTypedElement item).
Proof.
  pose proof (canvasElementSchema_nil [] item) as Hnil.
  split; [|split].
  - unfold parse. rewrite <- Hnil.
    destruct (canvasElementSchema [] (Some item)); split; done.
  - intros Hbad. unfold parse. rewrite <- Hnil in Hbad.
    destruct (canvasElementSchema [] (Some item)) as [|i rest]; [done|].
    by exists (i :: rest).
  - intros fields key -> Hkey Hnull
      (fields' & [= <-] & _ & _ & _ & _ & Hp & Hpos & Hteam & Htext).
    rewrite !elem_of_cons, elem_of_nil in Hkey.
    destruct Hkey as [->|[->|[->|[->|[]]]]]; rewrite Hnull in *.
    + destruct Hp as [?|(j & [= <-] & items & ? & _)]; done.
    + destruct Hpos as [?|(j & [= <-] & ? & ?)]; done.
    + destruct Hteam as [?|(j & [= <-] & ? & ? & _)]; done.
    + destruct Htext as [?|(j & [= <-] & ? & ?)]; done.
Qed.

Lemma parse_cases (schema : Schema) (v : Json) :
  (schema [] (Some v) = [] ∧ parse schema v = Returned v) ∨
  (∃ issues, issues ≠ [] ∧ schema [] (Some v) = issues ∧
             parse schema v = Threw (ZodError issues)).
Proof.
  unfold parse. destruct (schema [] (Some v)) as [|i rest]; [by left|].
  right. by exists (i :: rest).
Qed.

Lemma canvas_nil (canvas : Json) :
  zArray canvasElementSchema [] (Some canvas) = [] ↔
  ∃ items, canvas = JArr items ∧ Forall validElement items.
Proof.
  rewrite (zArray_nil canvasElementSchema validElement).
  - split; [intros (items & [= ->] & ?)|intros (items & -> & ?)]; eauto.
  - intros path' j. unfold validElement. by rewrite !canvasElementSchema_nil.
Qed.

(** The canvas check of [MemStorage] ([z.array(canvasElementSchema)]) passes
    exactly for a JSON array all of whose items the element schema accepts;
    the empty array passes and anything that is not an array is refused. *)
Theorem canvas_validated_elementwise (canvas : Json) :
  (parse (zArray canvasElementSchema) canvas = Returned canvas ↔
     ∃ items, canvas = JArr items ∧ Forall validElement items) ∧
  parse (zArray canvasElementSchema) (JArr []) = Returned (JArr []) ∧
  ((∀ items, canvas ≠ JArr items) →
     parse (zArray canvasElementSchema) canvas
     = Threw (ZodError [mkIssue [] InvalidType])).
Proof.
  split; [|split; [done|]].
  - rewrite <- canvas_nil.
    destruct (parse_cases (zArray canvasElementSchema) canvas)
      as [[H1 H2]|(issues & Hne & H1 & H2)]; rewrite H1, H2; split; done.
  - intros Hna. destruct canvas; try done. by destruct (Hna items).
Qed.

End MoreValidation.

(** ** The in-memory storage *)

Section MoreStorage.
Import Server.

Lemma constructor_calls now :
  Mem.constructor now
  = foldl Mem.call (mkMemStorage ∅ ∅ ∅ 1 1 1)
      [ Mem.CreateUser (mkInsertUser "demo" "password");
        Mem.CreateFolder now (mkInsertFolder "Offense Plays" 1);
        Mem.CreateFolder now (mkInsertFolder "Defense Plays" 1);
        Mem.CreateFolder now (mkInsertFolder "Face-off Strategies" 1) ].
Proof. reflexivity. Qed.

Lemma lookup_insert_below {A} (m : gmap Z A) (n k : Z) (x y : A) :
  (∀ k y, m !! k = Some y → (k < n)%Z) →
  <[n := x]> m !! k = Some y → (k < n + 1)%Z.
Proof.
  intros Hm [[-> _]|[_ Hk]]%lookup_insert_Some; [lia|].
  apply Hm in Hk. lia.
Qed.

Lemma idsBelowCounters_call s c : idsBelowCounters s → idsBelowCounters (Mem.call s c).
Proof.
  intros (Hu & Hf & Hp).
  destruct c as [u|now f|id|now p|now id u|id]; cbn [Mem.call].
  - split; [|by split]. intros k y. simpl. by apply lookup_insert_below.
  - split; [done|]. split; [|done]. intros k y. simpl. by apply lookup_insert_below.
  - split; [done|]. split; simpl.
    + intros k f [_ Hk]%lookup_delete_Some. by eapply Hf.
    + intros k p. rewrite lookup_delete_plays. case_decide; [done|]. apply Hp.
  - split; [|split].
    + unfold Mem.createPlay. by destruct (parse _ _).
    + unfold Mem.createPlay. by destruct (parse _ _).
    + unfold Mem.createPlay. destruct (parse _ _); simpl.
      * intros k y. by apply lookup_insert_below.
      * intros k y Hk. apply Hp in Hk. lia.
  - unfold Mem.updatePlay. destruct (plays s !! id) as [play|] eqn:Hid; [|done].
    destruct (match pu_canvas u with Some _ => _ | None => _ end); [|done].
    split; [done|]. split; [done|]. simpl.
    intros k y [[<- _]|[_ Hk]]%lookup_insert_Some; [by eapply Hp|by eapply Hp].
  - split; [done|]. split; [done|]. simpl.
    intros k p [_ Hk]%lookup_delete_Some. by eapply Hp.
Qed.

Lemma stored_idsBelowCounters s : Mem.stored s → idsBelowCounters s.
Proof.
  intros (now & calls & ->). rewrite constructor_calls, <- foldl_app.
  induction (_ ++ calls) as [|c l IH] using rev_ind.
  - by split; [|split]; intros k y H.
  - rewrite foldl_snoc. by apply idsBelowCounters_call.
Qed.

Lemma counters_call s c :
  (currentUserId s ≤ currentUserId (Mem.call s c))%Z ∧
  (currentFolderId s ≤ currentFolderId (Mem.call s c))%Z ∧
  (currentPlayId s ≤ currentPlayId (Mem.call s c))%Z.
Proof.
  destruct c as [u|now f|id|now p|now id u|id]; cbn [Mem.call].
  - simpl. lia.
  - simpl. lia.
  - simpl. lia.
  - unfold Mem.createPlay. destruct (parse _ _); simpl; lia.
  - unfold Mem.updatePlay. destruct (plays s !! id); [|simpl; lia].
    destruct (match pu_canvas u with Some _ => _ | None => _ end); simpl; lia.
  - simpl. lia.
Qed.

(** In every state a [MemStorage] reaches from its constructor, each stored
    user, folder and play has an id below the matching counter, so the id the
    next create call hands out is not in use; and no call lowers a counter,
    so the id of a deleted row is never handed out again. *)
Theorem ids_never_reused (s : MemStorage) :
  Mem.stored s →
  idsBelowCounters s ∧
  users s !! currentUserId s = None ∧
  folders s !! currentFolderId s = None ∧
  plays s !! currentPlayId s = None ∧
  (∀ c, Mem.stored (Mem.call s c) ∧
        (currentUserId s ≤ currentUserId (Mem.call s c))%Z ∧
        (currentFolderId s ≤ currentFolderId (Mem.call s c))%Z ∧
        (currentPlayId s ≤ currentPlayId (Mem.call s c))%Z).
Proof.
  intros Hs. pose proof (stored_idsBelowCounters s Hs) as Hids.
  split; [done|]. destruct Hids as (Hu & Hf & Hp).
  split; [|split; [|split]].
  - destruct (users s !! currentUserId s) eqn:H; [|done]. apply Hu in H. lia.
  - destruct (folders s !! currentFolderId s) eqn:H; [|done]. apply Hf in H. lia.
  - destruct (plays s !! currentPlayId s) eqn:H; [|done]. apply Hp in H. lia.
  - intros c. split; [|apply counters_call].
    destruct Hs as (now & calls & ->). exists now, (calls ++ [c]).
    by rewrite foldl_snoc.
Qed.

Lemma ids_never_reused_witness :
  let s := foldl Mem.call (Mem.constructor 0)
             [Mem.CreatePlay 5 (mkInsertPlay "Fast break" 1 1 (JArr []));
              Mem.DeletePlay 1] in
  Mem.stored s ∧ currentPlayId s = 2%Z ∧ plays s !! 2%Z = None.
Proof.
  intros s.
  assert (Hs : Mem.stored s) by (by exists 0%Z, [Mem.CreatePlay 5 (mkInsertPlay "Fast break" 1 1 (JArr [])); Mem.DeletePlay 1]).
  split; [exact Hs|]. split; [reflexivity|].
  pose proof (ids_never_reused s Hs) as (_ & _ & _ & H & _). exact H.
Defined.

(** [MemStorage.createPlay] always advances the play counter and leaves
    users and folders alone.  When the canvas is an array of valid elements
    it returns the new play, stored under the id the counter held, with both
    timestamps at the clock, and no other play changes; otherwise it throws a
    [ZodError] and the plays are as before, the id being used up. *)
Theorem createPlay_stores (now : Z) (insertPlay : InsertPlay) (s : MemStorage) :
  Mem.stored s →
  let id := currentPlayId s in
  let res := Mem.createPlay now insertPlay s in
  let play := mkPlay id (ip_name insertPlay) (ip_folderId insertPlay)
                (ip_userId insertPlay) (ip_canvas insertPlay) now now in
  Mem.getPlay id s = None ∧
  currentPlayId res.2 = (id + 1)%Z ∧
  users res.2 = users s ∧ folders res.2 = folders s ∧
  ((∃ items, ip_canvas insertPlay = JArr items ∧ Forall validElement items) →
     res.1 = Returned play ∧
     Mem.getPlay id res.2 = Some play ∧
     (∀ k, k ≠ id → Mem.getPlay k res.2 = Mem.getPlay k s)) ∧
  (¬ (∃ items, ip_canvas insertPlay = JArr items ∧ Forall validElement items) →
     (∃ issues, issues ≠ [] ∧ res.1 = Threw (ZodError issues)) ∧
     plays res.2 = plays s).
Proof.
  intros Hs id res play.
  pose proof (stored_idsBelowCounters s Hs) as (_ & _ & Hp).
  split.
  { unfold Mem.getPlay, id. destruct (plays s !! currentPlayId s) eqn:H; [|done].
    apply Hp in H. lia. }
  subst res. unfold Mem.createPlay. fold id.
  destruct (parse_cases (zArray canvasElementSchema) (ip_canvas insertPlay))
    as [[Hnil ->]|(issues & Hne & Hnil & ->)]; simpl.
  - split; [done|]. split; [done|]. split; [done|]. split.
    + intros _. split; [done|]. unfold Mem.getPlay. simpl. split.
      * by rewrite lookup_insert_eq.
      * intros k Hk. by rewrite lookup_insert_ne.
    + intros Hbad. destruct Hbad. by apply canvas_nil.
  - split; [done|]. split; [done|]. split; [done|]. split.
    + intros Hok%canvas_nil. rewrite Hok in Hnil. by subst issues.
    + intros _. split; [|done]. by exists issues.
Qed.

Lemma createPlay_stores_witness :
  let s := Mem.constructor 0 in
  let insertPlay := mkInsertPlay "Fast break" 1 1 (JArr []) in
  Mem.stored s ∧
  (Mem.createPlay 5 insertPlay s).1 = Returned (mkPlay 1 "Fast break" 1 1 (JArr []) 5 5) ∧
  Mem.getPlay 1 (Mem.createPlay 5 insertPlay s).2
  = Some (mkPlay 1 "Fast break" 1 1 (JArr []) 5 5).
Proof.
  intros s insertPlay.
  assert (Hs : Mem.stored s) by (by exists 0%Z, []).
  split; [exact Hs|].
  pose proof (createPlay_stores 5 insertPlay s Hs) as (_ & _ & _ & _ & Hok & _).
  destruct Hok as (H1 & H2 & _).
  - exists []. split; [reflexivity|]. apply Forall_nil_2.
  - split; [exact H1|exact H2].
Defined.

(** [MemStorage.updatePlay], for an update of its declared type
    [Partial<InsertPlay>] (name, folderId, userId and canvas, each present or
    not), touches nothing but the play with the given id.
    For an id that is not stored it returns [undefined].  When it returns a
    play, that play is the stored one overlaid with the update: id and
    creation time kept, update time at the clock, and it is what [getPlay]
    then finds.  When it throws, the update carried a truthy canvas that the
    canvas check refuses, and the storage is unchanged.  A canvas of [null]
    is falsy, so it is stored without being checked. *)
Theorem updatePlay_outcomes (now id : Z) (playUpdate : PartialInsertPlay) (s : MemStorage) :
  let res := Mem.updatePlay now id playUpdate s in
  (∀ k, k ≠ id → Mem.getPlay k res.2 = Mem.getPlay k s) ∧
  (is_Some (Mem.getPlay id res.2) ↔ is_Some (Mem.getPlay id s)) ∧
  users res.2 = users s ∧ folders res.2 = folders s ∧
  currentPlayId res.2 = currentPlayId s ∧
  (Mem.getPlay id s = None → res = (Returned None, s)) ∧
  (∀ updated, res.1 = Returned (Some updated) →
     ∃ play, Mem.getPlay id s = Some play ∧
       updated = applyUpdate now play playUpdate ∧
       Mem.getPlay id res.2 = Some updated ∧
       play_id updated = play_id play ∧
       play_createdAt updated = play_createdAt play ∧
       play_updatedAt updated = now) ∧
  (∀ e, res.1 = Threw e →
     res.2 = s ∧
     ∃ canvas, up_canvas playUpdate = Some canvas ∧ truthy canvas = true ∧
       parse (zArray canvasElementSchema) canvas = Threw e) ∧
  (∀ play, Mem.getPlay id s = Some play → up_canvas playUpdate = Some JNull →
     res.1 = Returned (Some (applyUpdate now play playUpdate)) ∧
     play_canvas (applyUpdate now play playUpdate) = JNull).
Proof.
  intros res. subst res. unfold Mem.updatePlay, Mem.getPlay.
  cbn [declared pu_canvas].
  destruct (plays s !! id) as [play|] eqn:Hid.
  - destruct (up_canvas playUpdate) as [canvas|] eqn:Hc.
    + destruct (truthy canvas) eqn:Ht.
      * destruct (parse (zArray canvasElementSchema) canvas) as [v|e] eqn:Hparse; simpl.
        -- split; [by intros k Hk; rewrite lookup_insert_ne|].
           split; [by rewrite lookup_insert_eq|].
           split; [done|]. split; [done|]. split; [done|]. split; [done|].
           split; [|split; [done|]].
           ++ intros updated [= <-]. exists play. by rewrite lookup_insert_eq.
           ++ intros play' [= <-] [= ->]. done.
        -- split; [done|]. split; [by rewrite Hid|].
           split; [done|]. split; [done|]. split; [done|]. split; [done|].
           split; [done|]. split.
           ++ intros e' [= <-]. split; [done|]. by exists canvas.
           ++ intros play' [= <-] [= ->]. done.
      * simpl.
        split; [by intros k Hk; rewrite lookup_insert_ne|].
        split; [by rewrite lookup_insert_eq|].
        split; [done|]. split; [done|]. split; [done|]. split; [done|].
        split; [|split; [done|]].
        -- intros updated [= <-]. exists play. by rewrite lookup_insert_eq.
        -- intros play' [= <-] [= ->]. split; [done|].
           unfold applyUpdate. simpl. by rewrite Hc.
    + simpl.
      split; [by intros k Hk; rewrite lookup_insert_ne|].
      split; [by rewrite lookup_insert_eq|].
      split; [done|]. split; [done|]. split; [done|]. split; [done|].
      split; [|split; [done|done]].
      intros updated [= <-]. exists play. by rewrite lookup_insert_eq.
  - simpl. split; [done|]. split; [by rewrite Hid|].
    split; [done|]. split; [done|]. split; [done|]. split; [done|].
    split; [done|]. split; done.
Qed.

(** [MemStorage.deletePlay] answers whether the id was stored; afterwards
    the id is not found, every other play, the folders and the counters are
    as before, and a second delete of the same id answers [false] and
    changes nothing. *)
Theorem deletePlay_outcomes (id : Z) (s : MemStorage) :
  let res := Mem.deletePlay id s in
  (res.1 = true ↔ is_Some (Mem.getPlay id s)) ∧
  Mem.getPlay id res.2 = None ∧
  (∀ k, k ≠ id → Mem.getPlay k res.2 = Mem.getPlay k s) ∧
  folders res.2 = folders s ∧
  currentPlayId res.2 = currentPlayId s ∧
  Mem.deletePlay id res.2 = (false, res.2).
Proof.
  intros res. subst res. unfold Mem.deletePlay, Mem.getPlay. simpl.
  split; [by rewrite bool_decide_eq_true|].
  split; [by rewrite lookup_delete_eq|].
  split; [by intros k Hk; rewrite lookup_delete_ne|].
  split; [done|]. split; [done|].
  rewrite lookup_delete_eq, delete_delete_eq. f_equal.
Qed.

(** Deleting keys that are not stored changes nothing. *)
Lemma foldl_delete_absent (l : list Play) : ∀ m : gmap Z Play,
  (∀ p, p ∈ l → m !! play_id p = None) →
  foldl (λ m play, delete (play_id play) m) m l = m.
Proof.
  induction l as [|play l IH]; intros m Hm; [done|]. simpl.
  rewrite delete_id by apply Hm, list_elem_of_here.
  apply IH. intros p Hp. by apply Hm, list_elem_of_further.
Qed.

(** After [deleteFolder(id)] the [id] of a play that is still in the folder
    is not a key of the map. *)
Lemma deleteFolder_ids_absent id s play :
  play ∈ filter (λ play, play_folderId play = id) (values (plays (Mem.deleteFolder id s).2)) →
  plays (Mem.deleteFolder id s).2 !! play_id play = None.
Proof.
  intros [Hf (k & Hk)%elem_of_values]%list_elem_of_filter.
  unfold Mem.deleteFolder in *; simpl in *.
  rewrite lookup_delete_plays in Hk. case_decide; [done|].
  rewrite lookup_delete_plays, decide_True; [done|].
  apply list_elem_of_fmap. exists play. split; [done|].
  apply list_elem_of_filter. split; [done|]. apply elem_of_values. by exists k.
Qed.

(** In a state reached from the constructor, [MemStorage.deleteFolder]
    answers whether the folder was stored; afterwards the folder is not
    found, the other folders, the users and the counters are as before, and
    a second delete of the same id answers [false] and changes nothing. *)
Theorem deleteFolder_outcomes (id : Z) (s : MemStorage) :
  Mem.stored s →
  let res := Mem.deleteFolder id s in
  (res.1 = true ↔ is_Some (Mem.getFolder id s)) ∧
  Mem.getFolder id res.2 = None ∧
  (∀ k, k ≠ id → Mem.getFolder k res.2 = Mem.getFolder k s) ∧
  users res.2 = users s ∧
  currentFolderId res.2 = currentFolderId s ∧
  currentPlayId res.2 = currentPlayId s ∧
  Mem.deleteFolder id res.2 = (false, res.2).
Proof.
  intros _ res.
  assert (Hsame : foldl (λ m play, delete (play_id play) m) (plays res.2)
                    (filter (λ play, play_folderId play = id) (values (plays res.2)))
                  = plays res.2).
  { apply foldl_delete_absent. intros p Hp. by apply deleteFolder_ids_absent. }
  split; [by apply bool_decide_eq_true|].
  split; [by apply lookup_delete_eq|].
  split; [by intros k Hk; apply lookup_delete_ne|].
  split; [done|]. split; [done|]. split; [done|].
  unfold Mem.deleteFolder at 1. rewrite Hsame.
  subst res. simpl.
  rewrite lookup_delete_eq, delete_delete_eq. done.
Qed.

Lemma deleteFolder_outcomes_witness :
  let s := Mem.constructor 0 in
  Mem.stored s ∧
  (Mem.deleteFolder 1 s).1 = true ∧
  Mem.getFolder 1 (Mem.deleteFolder 1 s).2 = None ∧
  Mem.deleteFolder 1 (Mem.deleteFolder 1 s).2 = (false, (Mem.deleteFolder 1 s).2).
Proof.
  intros s.
  assert (Hs : Mem.stored s) by (by exists 0%Z, []).
  split; [exact Hs|].
  pose proof (deleteFolder_outcomes 1 s Hs) as (_ & H2 & _ & _ & _ & _ & H7).
  split; [reflexivity|]. split; [exact H2|exact H7].
Defined.

Lemma keyedById_calls now calls :
  Forall Mem.keepsId calls → Mem.keyedById (foldl Mem.call (Mem.constructor now) calls).
Proof.
  induction calls as [|c calls IH] using rev_ind; intros Hcalls.
  - apply keyedById_constructor.
  - apply Forall_app in Hcalls as [Hcalls Hc%Forall_inv].
    rewrite foldl_snoc. apply keyedById_call; [exact Hc|by apply IH].
Qed.

(** In a state reached from the constructor by calls none of which is an
    update whose body carries an [id] other than the one the play is stored
    under, every play is stored under its own id, and [deleteFolder(id)]
    removes the plays whose [folderId] is [id], and only those, and then the
    folder: afterwards [getPlays(id)] is empty, no stored play refers to the
    folder, and the folder is gone. *)
Theorem deleteFolder_removes_keyed_plays (now : Z) (calls : list Mem.Call) (id : Z) :
  Forall Mem.keepsId calls →
  let s := foldl Mem.call (Mem.constructor now) calls in
  let s' := (Mem.deleteFolder id s).2 in
  Mem.keyedById s ∧
  Mem.getPlays id s' = [] ∧
  (∀ k play, plays s' !! k = Some play → play_folderId play ≠ id) ∧
  (∀ k play, plays s !! k = Some play → play_folderId play ≠ id →
             plays s' !! k = Some play) ∧
  Mem.getFolder id s' = None.
Proof.
  intros Hkey%(keyedById_calls now) s s'. fold s in Hkey.
  assert (Hgone : ∀ k play, plays s' !! k = Some play → play_folderId play ≠ id).
  { intros k play. unfold s'. rewrite plays_deleteFolder by done.
    destruct (plays s !! k); [|done]. case_decide; [done|]. by intros [= <-]. }
  split; [done|]. split; [|split; [done|split]].
  - unfold Mem.getPlays. rewrite filter_none; [done|].
    intros play (k & Hk)%elem_of_values. by apply (Hgone k).
  - intros k play Hk Hf. unfold s'. rewrite plays_deleteFolder, Hk by done.
    by rewrite decide_False.
  - apply lookup_delete_eq.
Qed.

Lemma deleteFolder_removes_keyed_plays_witness :
  let calls := [Mem.CreatePlay 5 (mkInsertPlay "Fast break" 1 1 (JArr []));
                Mem.UpdatePlay 6 1 (mkPlayUpdate None (Some "Fast break 2") None None None None)] in
  let s := foldl Mem.call (Mem.constructor 0) calls in
  Forall Mem.keepsId calls ∧
  Mem.getPlays 1 s = [mkPlay 1 "Fast break 2" 1 1 (JArr []) 5 6] ∧
  Mem.getPlays 1 (Mem.deleteFolder 1 s).2 = [].
Proof.
  intros calls s.
  assert (Hcalls : Forall Mem.keepsId calls).
  { repeat constructor. }
  split; [exact Hcalls|]. split; [reflexivity|].
  by apply (deleteFolder_removes_keyed_plays 0 calls 1 Hcalls).
Defined.

Lemma newerFirst_total : Total newerFirst.
Proof. intros a b. unfold newerFirst. lia. Qed.

Lemma newerFirst_transitive : Transitive newerFirst.
Proof. intros a b c. unfold newerFirst. lia. Qed.

(** [MemStorage.getPlays] returns the stored plays of the folder, each as
    often as it is stored, ordered so that no play comes before one that
    was updated later. *)
Theorem getPlays_newest_first (folderId : Z) (s : MemStorage) :
  let l := Mem.getPlays folderId s in
  StronglySorted newerFirst l ∧
  l ≡ₚ filter (λ play, play_folderId play = folderId) (values (plays s)) ∧
  (∀ play, play ∈ l ↔ play_folderId play = folderId ∧ ∃ k, plays s !! k = Some play) ∧
  (∀ i j a b, (i < j)%nat → l !! i = Some a → l !! j = Some b →
              (play_updatedAt b ≤ play_updatedAt a)%Z).
Proof.
  intros l.
  assert (Hsorted : StronglySorted newerFirst l).
  { pose proof newerFirst_total as Htotal.
    apply Sorted_StronglySorted; [exact newerFirst_transitive|].
    apply (Sorted_merge_sort newerFirst). }
  assert (Hperm : l ≡ₚ filter (λ play, play_folderId play = folderId) (values (plays s))).
  { apply merge_sort_Permutation. }
  split; [done|]. split; [done|]. split.
  - intros play. rewrite Hperm, list_elem_of_filter, elem_of_values. done.
  - clear Hperm. induction Hsorted as [|x l' Hl' IH Hall]; intros i j a b Hij Hi Hj.
    + done.
    + destruct j as [|j]; [lia|]. simpl in Hj. destruct i as [|i].
      * injection Hi as <-.
        apply (proj1 (Forall_forall _ _) Hall). by eapply list_elem_of_lookup_2.
      * simpl in Hi. apply (IH i j a b); [lia|done|done].
Qed.

End MoreStorage.

(** ** The routes *)

Section MoreRoutes.
Import Server.

Lemma getKey_app key (l1 l2 : list (string * Json)) :
  getKey key (l1 ++ l2) = if getKey key l1 is Some v then Some v else getKey key l2.
Proof.
  induction l1 as [|[k v] l1 IH]; simpl; [done|]. by case_decide.
Qed.

Lemma getKey_filter_ne key key' (l : list (string * Json)) :
  getKey key (filter (λ kv, kv.1 ≠ key') l)
  = if decide (key = key') then None else getKey key l.
Proof.
  induction l as [|[k v] l IH]; simpl.
  - by case_decide.
  - rewrite filter_cons. simpl. destruct (decide (k ≠ key')) as [Hk|Hk]; simpl.
    + rewrite IH. repeat case_decide; congruence.
    + rewrite IH. apply dec_stable in Hk. repeat case_decide; congruence.
Qed.

Lemma getKey_setKey key key' v (l : list (string * Json)) :
  getKey key (setKey key' v l) = if decide (key = key') then Some v else getKey key l.
Proof.
  unfold setKey. rewrite getKey_app, getKey_filter_ne. simpl.
  destruct (decide (key = key')) as [->|Hne].
  - by rewrite decide_True.
  - destruct (getKey key l); [done|]. by rewrite decide_False.
Qed.

(** What [insertPlaySchema.parse({ ...req.body, userId: 1 })] returns. *)
Lemma parseInsertPlay_cases (fields : list (string * Json)) :
  (∃ name folderId canvas,
     getKey "name" fields = Some (JStr name) ∧
     getKey "folderId" fields = Some (JNum folderId) ∧
     isInteger folderId = true ∧
     getKey "canvas" fields = Some canvas ∧
     parseInsertPlay (setKey "userId" (JNum 1) fields)
     = Returned (mkInsertPlay name (Qnum (Qred folderId)) 1 canvas)) ∨
  (∃ issues, issues ≠ [] ∧
     parseInsertPlay (setKey "userId" (JNum 1) fields) = Threw (ZodError issues)).
Proof.
  unfold parseInsertPlay, insertPlaySchema, zObject.
  cbn [fmap list_fmap concat fst snd].
  rewrite !getKey_setKey.
  rewrite (decide_False (P := "name" = "userId")) by done.
  rewrite (decide_False (P := "folderId" = "userId")) by done.
  rewrite (decide_True (P := "userId" = "userId")) by done.
  rewrite (decide_False (P := "canvas" = "userId")) by done.
  destruct (getKey "name" fields) as [[| | |name| |]|];
    destruct (getKey "folderId" fields) as [[| |folderId| | |]|];
    destruct (getKey "canvas" fields) as [canvas|];
    try (right; eexists; split; [|reflexivity]; done).
  all: unfold zInt; destruct (isInteger folderId) eqn:Hint.
  all: try (right; eexists; split; [|reflexivity]; done).
  left. by exists name, folderId, canvas.
Qed.

(** [POST /api/plays] over a [MemStorage] answers 201 or 400, never 500.
    With 201 the play has the id the counter held, user id 1 whatever the
    body says, both timestamps at the clock and the canvas of the body, which
    is an array of valid elements, and [getPlay] finds it.  With 400 the
    message carries at least one issue and no play or folder has changed. *)
Theorem postPlays_memory_outcomes (now : Z) (reqBody : Json) (s : MemStorage) :
  let res := postPlays now reqBody s in
  (∃ play items,
     res.1 = mkResponse 201 (PlayBody play) ∧
     play_id play = currentPlayId s ∧ play_userId play = 1%Z ∧
     play_createdAt play = now ∧ play_updatedAt play = now ∧
     getKey "canvas" (ownFields reqBody) = Some (JArr items) ∧
     play_canvas play = JArr items ∧ Forall validElement items ∧
     Mem.getPlay (play_id play) res.2 = Some play) ∨
  (∃ issues, issues ≠ [] ∧
     res.1 = mkResponse 400 (MessageBody (ValidationMessage issues)) ∧
     plays res.2 = plays s ∧ folders res.2 = folders s).
Proof.
  intros res. subst res. unfold postPlays.
  destruct (parseInsertPlay_cases (ownFields reqBody))
    as [(name & folderId & canvas & Hn & Hf & Hint & Hc & ->)|(issues & Hne & ->)].
  - cbn [createPlay MemStorage_IStorage]. unfold Mem.createPlay. cbn [ip_canvas].
    destruct (parse_cases (zArray canvasElementSchema) canvas)
      as [[Hnil ->]|(issues & Hne & Hnil & ->)].
    + apply canvas_nil in Hnil as (items & -> & Hall). left.
      eexists _, items. split; [reflexivity|]. simpl.
      split; [done|]. split; [done|]. split; [done|]. split; [done|].
      split; [done|]. split; [done|]. split; [done|].
      unfold Mem.getPlay. simpl. by rewrite lookup_insert_eq.
    + right. exists issues. by split.
  - right. exists issues. by split.
Qed.

Lemma parseInsertPlay_accepts (fields : list (string * Json)) name folderId canvas :
  getKey "name" fields = Some (JStr name) →
  getKey "folderId" fields = Some (JNum folderId) →
  isInteger folderId = true →
  getKey "canvas" fields = Some canvas →
  parseInsertPlay (setKey "userId" (JNum 1) fields)
  = Returned (mkInsertPlay name (Qnum (Qred folderId)) 1 canvas).
Proof.
  intros Hn Hf Hint Hc.
  unfold parseInsertPlay, insertPlaySchema, zObject.
  cbn [fmap list_fmap concat fst snd].
  rewrite !getKey_setKey.
  rewrite (decide_False (P := "name" = "userId")) by done.
  rewrite (decide_False (P := "folderId" = "userId")) by done.
  rewrite (decide_True (P := "userId" = "userId")) by done.
  rewrite (decide_False (P := "canvas" = "userId")) by done.
  rewrite Hn, Hf, Hc. unfold zInt. by rewrite Hint.
Qed.

(** [POST /api/plays] as it is wired, over the database, answers 201, 400
    or 500.  With 201 the inserted row has the next serial id, user id 1
    whatever the body says and both timestamps at the clock, and it is the
    one row added.  With 400 the message carries at least one issue and the
    database is unchanged.  With 500 no row is added.  A body that passes the
    schema with a canvas of [null] is answered with 500: the schema takes any
    JSON for the canvas and the column is declared NOT NULL. *)
Theorem postPlaysRoute_outcomes (now : Z) (reqBody : Json) (db : Database) :
  let res := postPlaysRoute now reqBody db in
  ((∃ play,
      res.1 = mkResponse 201 (PlayBody play) ∧
      play_id play = plays_id_seq db ∧ play_userId play = 1%Z ∧
      play_createdAt play = now ∧ play_updatedAt play = now ∧
      plays_table res.2 = plays_table db ++ [play] ∧
      folders_table res.2 = folders_table db) ∨
   (∃ issues, issues ≠ [] ∧
      res.1 = mkResponse 400 (MessageBody (ValidationMessage issues)) ∧
      res.2 = db) ∨
   (res.1 = mkResponse 500 (MessageBody (Literal "Failed to create play")) ∧
    plays_table res.2 = plays_table db ∧
    folders_table res.2 = folders_table db)) ∧
  (∀ name folderId,
     getKey "name" (ownFields reqBody) = Some (JStr name) →
     getKey "folderId" (ownFields reqBody) = Some (JNum folderId) →
     isInteger folderId = true →
     getKey "canvas" (ownFields reqBody) = Some JNull →
     status res.1 = 500%Z).
Proof.
  intros res. subst res. unfold postPlaysRoute, postPlays. split.
  - destruct (parseInsertPlay_cases (ownFields reqBody))
      as [(name & folderId & canvas & Hn & Hf & Hint & Hc & ->)|(issues & Hne & ->)].
    + cbn [createPlay DatabaseStorage_IStorage]. unfold Db.createPlay. cbn [ip_canvas].
      destruct canvas; simpl;
        first [ by right; right
              | left; eexists; split; [reflexivity|]; simpl; by repeat split ].
    + right. left. exists issues. by split.
  - intros name folderId Hn Hf Hint Hc.
    by rewrite (parseInsertPlay_accepts _ name folderId JNull Hn Hf Hint Hc).
Qed.

Lemma filter_filter_ne {A} (f : A → Z) (id : Z) (l : list A) :
  filter (λ x, f x = id) (filter (λ x, f x ≠ id) l) = [].
Proof.
  apply filter_none. by intros x [? _]%list_elem_of_filter.
Qed.

(** After [DELETE /api/plays/:id], over a [MemStorage] or the database,
    [GET /api/plays/:id] answers 404 and so does a second delete; over a
    [MemStorage] the delete answers 204 exactly when the play was stored and
    every other stored play is still served with 200.  After
    [DELETE /api/folders/:id] a second delete of the folder answers 404. *)
Theorem deleted_play_not_found (id : Z) (s : MemStorage) (db : Database) :
  let res := deletePlayRoute (Some id) s in
  (status res.1 = 204%Z ∧ is_Some (Mem.getPlay id s) ∨
   status res.1 = 404%Z ∧ Mem.getPlay id s = None ∧ plays res.2 = plays s) ∧
  status (getPlayRoute (Some id) res.2) = 404%Z ∧
  status (deletePlayRoute (Some id) res.2).1 = 404%Z ∧
  (∀ k play, k ≠ id → Mem.getPlay k s = Some play →
     getPlayRoute (Some k) res.2 = mkResponse 200 (PlayBody play)) ∧
  status (getPlayRoute (Some id) (deletePlayRoute (Some id) db).2) = 404%Z ∧
  status (deletePlayRoute (Some id) (deletePlayRoute (Some id) db).2).1 = 404%Z ∧
  status (deleteFolderRoute (Some id) (deleteFolderRoute (Some id) s).2).1 = 404%Z ∧
  status (deleteFolderRoute (Some id) (deleteFolderRoute (Some id) db).2).1 = 404%Z.
Proof.
  intros res.
  assert (Hres : res.2 = (Mem.deletePlay id s).2).
  { subst res. unfold deletePlayRoute. cbn [deletePlay MemStorage_IStorage].
    unfold Mem.deletePlay. by destruct (bool_decide _). }
  assert (Hdb : (deletePlayRoute (Some id) db).2 = (Db.deletePlay id db).2).
  { unfold deletePlayRoute. cbn [deletePlay DatabaseStorage_IStorage].
    unfold Db.deletePlay. by destruct (bool_decide _). }
  assert (Hfs : (deleteFolderRoute (Some id) s).2 = (Mem.deleteFolder id s).2).
  { unfold deleteFolderRoute. cbn [deleteFolder MemStorage_IStorage].
    unfold Mem.deleteFolder. by destruct (bool_decide _). }
  assert (Hfdb : (deleteFolderRoute (Some id) db).2 = (Db.deleteFolder id db).2).
  { unfold deleteFolderRoute. cbn [deleteFolder DatabaseStorage_IStorage].
    unfold Db.deleteFolder. by destruct (bool_decide _). }
  split; [|split; [|split; [|split; [|split; [|split; [|split]]]]]].
  - subst res. unfold deletePlayRoute. cbn [deletePlay MemStorage_IStorage].
    unfold Mem.deletePlay, Mem.getPlay.
    destruct (plays s !! id) as [play|] eqn:Hid.
    + left. rewrite bool_decide_eq_true_2 by done. by split.
    + right. rewrite bool_decide_eq_false_2 by (by intros [? ?]). simpl.
      split; [done|]. split; [done|]. by apply delete_id.
  - rewrite Hres. unfold getPlayRoute. cbn [getPlay MemStorage_IStorage].
    unfold Mem.getPlay, Mem.deletePlay. simpl. by rewrite lookup_delete_eq.
  - rewrite Hres. unfold deletePlayRoute. cbn [deletePlay MemStorage_IStorage].
    unfold Mem.deletePlay. simpl. rewrite lookup_delete_eq.
    by rewrite bool_decide_eq_false_2 by (by intros [? ?]).
  - intros k play Hk Hplay. rewrite Hres. unfold getPlayRoute.
    cbn [getPlay MemStorage_IStorage]. unfold Mem.getPlay in *. simpl.
    by rewrite lookup_delete_ne, Hplay.
  - rewrite Hdb. unfold getPlayRoute. cbn [getPlay DatabaseStorage_IStorage].
    unfold Db.getPlay, Db.deletePlay. simpl.
    by rewrite (filter_filter_ne play_id).
  - rewrite Hdb. unfold deletePlayRoute. cbn [deletePlay DatabaseStorage_IStorage].
    unfold Db.deletePlay. simpl. rewrite (filter_filter_ne play_id).
    by rewrite bool_decide_eq_false_2 by (by intros H; apply H).
  - rewrite Hfs. unfold deleteFolderRoute. cbn [deleteFolder MemStorage_IStorage].
    unfold Mem.deleteFolder. simpl. rewrite lookup_delete_eq.
    by rewrite bool_decide_eq_false_2 by (by intros [? ?]).
  - rewrite Hfdb. unfold deleteFolderRoute. cbn [deleteFolder DatabaseStorage_IStorage].
    unfold Db.deleteFolder. simpl. rewrite (filter_filter_ne folder_id).
    by rewrite bool_decide_eq_false_2 by (by intros H; apply H).
Qed.

End MoreRoutes.
